(** * network-scanner.py: a shallow embedding and its properties

    The development follows [scripts/python/network-scanner.py]:
    host discovery ([discover_hosts]), the threaded port probe
    ([scan_port], [scan_host_ports]), the exporters ([save_json],
    [save_csv]), the baseline comparison ([compare_with_baseline]) and
    the driver ([main]).

    Python objects are modelled as the script uses them: [str] as
    [string], [int] as [Z], [set] as [gset], [dict] as [gmap], lists as
    [list].  Code that can raise lives in [result]; code that prints,
    touches files, starts threads or reads the clock lives in the
    state-and-exception monad [M] over a [World]. *)

From stdpp Require Import base option list sorting strings pretty gmap.

Set Warnings "-clear-no-such-hyp".

Open Scope Z_scope.
Open Scope string_scope.
Open Scope list_scope.

(** ** Exceptions and results *)

Inductive exn : Set :=
  | TypeError
  | KeyError
  | ValueError
  | OSError
  | JSONDecodeError.

Inductive result (A : Type) : Type :=
  | Ok (a : A)
  | Raise (e : exn).
Arguments Ok {A} a.
Arguments Raise {A} e.

Definition rbind {A B} (r : result A) (k : A → result B) : result B :=
  match r with
  | Ok a => k a
  | Raise e => Raise e
  end.

Notation "'let?' x := r 'in' k" := (rbind r (λ x, k))
  (at level 10, x name, r at level 100, k at level 200).

(** [try: body except: handler] with a bare [except]. *)
Definition try_except {A} (body : result A) (handler : exn → result A) : result A :=
  match body with
  | Ok a => Ok a
  | Raise e => handler e
  end.

(** A loop whose body may raise: the first exception ends it. *)
Fixpoint for_each {A S} (body : S → A → result S) (xs : list A) (s : S) : result S :=
  match xs with
  | [] => Ok s
  | x :: xs' => let? s' := body s x in for_each body xs' s'
  end.

(** ** Values that [json.load] returns

    [JInt] is a number read as [int]; numbers with a fraction or an
    exponent, which [json.load] reads as [float], are outside the model.
    [JObj] lists the members of a [dict] in insertion order, each key
    once. *)

#[warnings="-register-all"]
Inductive json : Type :=
  | JNull
  | JBool (b : bool)
  | JInt (n : Z)
  | JStr (s : string)
  | JArr (items : list json)
  | JObj (members : list (string * json)).

(** Hashable values, as members of a [set] or keys of a [dict].  [bool]
    is a subclass of [int]: [True == 1] and [hash(True) == hash(1)], so
    both are the same member. *)
Inductive atom : Type :=
  | ANone
  | AInt (n : Z)
  | AStr (s : string).

Global Instance atom_eq_dec : EqDecision atom.
Proof. solve_decision. Defined.

Definition atom_to_sum (a : atom) : unit + Z + string :=
  match a with
  | ANone => inl (inl tt)
  | AInt n => inl (inr n)
  | AStr s => inr s
  end.

Definition atom_of_sum (x : unit + Z + string) : atom :=
  match x with
  | inl (inl _) => ANone
  | inl (inr n) => AInt n
  | inr s => AStr s
  end.

Global Instance atom_countable : Countable atom.
Proof.
  apply (inj_countable' atom_to_sum atom_of_sum).
  by intros [].
Defined.

Global Instance AInt_inj : Inj (=) (=) AInt.
Proof. by intros x y [= ->]. Qed.

Global Instance AStr_inj : Inj (=) (=) AStr.
Proof. by intros x y [= ->]. Qed.

(** [hash(v)]: lists and dicts are unhashable. *)
Definition py_hash (v : json) : result atom :=
  match v with
  | JNull => Ok ANone
  | JBool b => Ok (AInt (if b then 1 else 0))
  | JInt n => Ok (AInt n)
  | JStr s => Ok (AStr s)
  | JArr _ | JObj _ => Raise TypeError
  end.

Fixpoint chars (s : string) : list string :=
  match s with
  | EmptyString => []
  | String c s' => String c EmptyString :: chars s'
  end.

(** [iter(v)]: a list yields its items, a dict its keys, a string its
    characters; anything else is not iterable. *)
Definition py_iter (v : json) : result (list json) :=
  match v with
  | JArr items => Ok items
  | JObj members => Ok (JStr <$> members.*1)
  | JStr s => Ok (JStr <$> chars s)
  | JNull | JBool _ | JInt _ => Raise TypeError
  end.

Fixpoint assoc (key : string) (members : list (string * json)) : option json :=
  match members with
  | [] => None
  | (k, v) :: rest => if decide (k = key) then Some v else assoc key rest
  end.

(** [v[key]] for a string [key]: only a dict can be subscripted by a
    string, and only at a key it holds. *)
Definition py_getitem (v : json) (key : string) : result json :=
  match v with
  | JObj members =>
      match assoc key members with
      | Some x => Ok x
      | None => Raise KeyError
      end
  | _ => Raise TypeError
  end.

(** [set(v)] *)
Definition py_set (v : json) : result (gset atom) :=
  let? items := py_iter v in
  for_each (λ s x, let? a := py_hash x in Ok ({[a]} ∪ s)) items ∅.

Definition as_int (a : atom) : option Z :=
  match a with AInt n => Some n | _ => None end.

Definition as_str (a : atom) : option string :=
  match a with AStr s => Some s | _ => None end.

(** [sorted(xs)]: integers order by value, strings lexicographically;
    [<] between values of different kinds, or on [None], raises, and
    sorting two or more items always compares. *)
Definition py_sorted (xs : list atom) : result (list atom) :=
  match mapM as_int xs with
  | Some ns => Ok (AInt <$> merge_sort Z.le ns)
  | None =>
      match mapM as_str xs with
      | Some ss => Ok (AStr <$> merge_sort String.le ss)
      | None => if decide (length xs ≤ 1)%nat then Ok xs else Raise TypeError
      end
  end.

(** [json.dump] of a hashable value; a [True] taken from the baseline
    is written as the integer it equals. *)
Definition json_of_atom (a : atom) : json :=
  match a with
  | ANone => JNull
  | AInt n => JInt n
  | AStr s => JStr s
  end.

(** ** Records of the script *)

(** The dict that [scan_host_ports] returns. *)
Record ScanRecord : Type := mkScan {
  ip : string;
  open_ports : list Z;
  scanned_at : string;
}.

(** The dict that [compare_with_baseline] appends. *)
Record ChangeRecord : Type := mkChange {
  change_ip : string;
  added_ports : list atom;
  removed_ports : list atom;
  detected_at : string;
}.

Global Instance ScanRecord_eq_dec : EqDecision ScanRecord.
Proof. solve_decision. Defined.

Global Instance ChangeRecord_eq_dec : EqDecision ChangeRecord.
Proof. solve_decision. Defined.

Definition json_of_scan (r : ScanRecord) : json :=
  JObj [("ip", JStr (ip r));
        ("open_ports", JArr (JInt <$> open_ports r));
        ("scanned_at", JStr (scanned_at r))].

Definition json_of_change (c : ChangeRecord) : json :=
  JObj [("ip", JStr (change_ip c));
        ("added_ports", JArr (json_of_atom <$> added_ports c));
        ("removed_ports", JArr (json_of_atom <$> removed_ports c));
        ("detected_at", JStr (detected_at c))].

Definition json_of_results (results : list ScanRecord) : json :=
  JArr (json_of_scan <$> results).

Definition json_of_changes (changes : list ChangeRecord) : json :=
  JArr (json_of_change <$> changes).

(** ** The world the script runs in *)

(** What a file holds: a document that [json.load] parses to the given
    value, the table [csv.DictWriter] wrote, or text that [json.load]
    rejects. *)
Inductive file : Type :=
  | JsonDoc (doc : json)
  | CsvDoc (fieldnames : list string) (rows : list ScanRecord)
  | NotJson (text : string).

(** [threading.Thread]: [t.start()] and [t.join()] as they happen. *)
Inductive thread_event : Set :=
  | Started (tid : nat)
  | Joined (tid : nat).

(** The outcome of one [socket.socket] / [connect_ex] attempt:
    creating the socket raises, [connect_ex] itself raises (name
    resolution, bad address), or [connect_ex] returns an [errno] value,
    [0] for an established connection, non-zero for a refusal, an
    unreachable host or the [TIMEOUT] expiring. *)
Inductive attempt : Set :=
  | SocketRaised
  | ConnectRaised
  | ConnectReturned (code : Z).

Record World : Type := mkWorld {
  fs : gmap string file;
  stdout : list string;
  thread_log : list thread_event;
  clock : nat;
}.

(** What the script only observes.  [clock] numbers the observations, so
    that the network and the wall clock may answer differently each time.
    [get_local_network] is the value of [get_local_network()];
    [parse_ports s] is [[int(p.strip()) for p in s.split(",") if p.strip()]],
    [None] when [int] raises; [srp network] is the [psrc] of every answer
    to the ARP sweep, in arrival order, or the exception scapy raises. *)
Record Env : Type := mkEnv {
  get_local_network : string;
  parse_ports : string → option (list Z);
  srp : string → result (list string);
  connect_ex : nat → string → Z → attempt;
  now : nat → string;
  writable : string → bool;
}.

Definition M (A : Type) : Type := World → result A * World.

Definition ret {A} (a : A) : M A := λ w, (Ok a, w).

Definition bind {A B} (m : M A) (k : A → M B) : M B := λ w,
  match m w with
  | (Ok a, w') => k a w'
  | (Raise e, w') => (Raise e, w')
  end.

Definition lift {A} (r : result A) : M A := λ w, (r, w).

Notation "'let*' x := m 'in' k" := (bind m (λ x, k))
  (at level 10, x name, m at level 100, k at level 200).

(** [try: body except: handler] around code with effects: what the body
    did before raising stays done. *)
Definition try_M {A} (body : M A) (handler : exn → M A) : M A := λ w,
  match body w with
  | (Ok a, w') => (Ok a, w')
  | (Raise e, w') => handler e w'
  end.

Definition print (line : string) : M unit := λ w,
  (Ok tt, mkWorld (fs w) (stdout w ++ [line]) (thread_log w) (clock w)).

Definition log_thread (ev : thread_event) : M unit := λ w,
  (Ok tt, mkWorld (fs w) (stdout w) (thread_log w ++ [ev]) (clock w)).

(** One observation of the outside: its number, and the clock moves on. *)
Definition tick : M nat := λ w,
  (Ok (clock w), mkWorld (fs w) (stdout w) (thread_log w) (S (clock w))).

(** [open(path, 'w')] and the write that follows *)
Definition write_file (env : Env) (path : string) (content : file) : M unit := λ w,
  if writable env path
  then (Ok tt, mkWorld (<[path := content]> (fs w)) (stdout w) (thread_log w) (clock w))
  else (Raise OSError, w).

(** [with open(path) as f: json.load(f)] *)
Definition load_json (path : string) : M json := λ w,
  match fs w !! path with
  | None => (Raise OSError, w)
  | Some (JsonDoc doc) => (Ok doc, w)
  | Some (CsvDoc _ _) | Some (NotJson _) => (Raise JSONDecodeError, w)
  end.

(** [datetime.now().isoformat()] *)
Definition datetime_now (env : Env) : M string :=
  let* t := tick in ret (now env t).

(** ** Configuration *)

Definition DEFAULT_PORTS : list Z := [22; 80; 443; 3306; 8080; 8443].
Definition THREADS : nat := 100.

(** ** Step 1: discover live hosts *)

Definition discover_hosts (env : Env) (network : string) : M (list string) :=
  let* _ := print ("[+] Scanning network: " ++ network) in
  let* answered := lift (srp env network) in
  ret (merge_sort String.le answered).

(** ** Step 2: port scan *)

Definition scan_port_body (env : Env) (tid : nat) (ip : string) (port : Z)
    (open_ports : gset Z) : result (gset Z) :=
  match connect_ex env tid ip port with
  | SocketRaised => Raise OSError
  | ConnectRaised => Raise OSError
  | ConnectReturned code =>
      Ok (if decide (code = 0) then {[port]} ∪ open_ports else open_ports)
  end.

Definition scan_port (env : Env) (tid : nat) (ip : string) (port : Z)
    (open_ports : gset Z) : result (gset Z) :=
  try_except (scan_port_body env tid ip port open_ports) (λ _, Ok open_ports).

(** [t = threading.Thread(target=scan_port, ...); t.start()].  The
    thread is named by the number of its connect attempt.  Its write to
    the shared set is taken at the start; [scan_port_schedule] below
    shows that the set read after the joins does not depend on the order
    in which the writes land.  An exception leaving [scan_port] is
    reported to the caller. *)
Definition thread_start (env : Env) (ip : string) (port : Z)
    (open_ports : gset Z) : M (nat * gset Z) :=
  let* tid := tick in
  let* _ := log_thread (Started tid) in
  let* open_ports' := lift (scan_port env tid ip port open_ports) in
  ret (tid, open_ports').

Fixpoint join_all (threads : list nat) : M unit :=
  match threads with
  | [] => ret tt
  | t :: rest => let* _ := log_thread (Joined t) in join_all rest
  end.

(** The [for port in ports] loop of [scan_host_ports], with its two
    variables [open_ports] and [threads]. *)
Fixpoint scan_threads (env : Env) (ip : string) (ports : list Z)
    (open_ports : gset Z) (threads : list nat) : M (gset Z * list nat) :=
  match ports with
  | [] => ret (open_ports, threads)
  | port :: rest =>
      let* started := thread_start env ip port open_ports in
      let threads' := threads ++ [started.1] in
      if decide (THREADS ≤ length threads')%nat
      then let* _ := join_all threads' in
           scan_threads env ip rest started.2 []
      else scan_threads env ip rest started.2 threads'
  end.

Definition scan_host_ports (env : Env) (ip : string) (ports : list Z) : M ScanRecord :=
  let* st := scan_threads env ip ports ∅ [] in
  let* _ := join_all st.2 in
  let* stamp := datetime_now env in
  ret (mkScan ip (merge_sort Z.le (elements st.1)) stamp).

(** ** Step 3: export results *)

Definition save_json (env : Env) (doc : json) (path : string) : M unit :=
  let* _ := write_file env path (JsonDoc doc) in
  print ("[+] JSON saved: " ++ path).

Definition save_csv (env : Env) (results : list ScanRecord) (path : string) : M unit :=
  match results with
  | [] => ret tt
  | _ :: _ =>
      let* _ := write_file env path (CsvDoc ["ip"; "open_ports"; "scanned_at"] results) in
      print ("[+] CSV saved: " ++ path)
  end.

(** ** Step 4: compare with baseline *)

(** [{h['ip']: set(h['open_ports']) for h in old}]: the key expression,
    then the value expression, then the store, which hashes the key. *)
Definition old_map_entry (m : gmap atom (gset atom)) (h : json) : result (gmap atom (gset atom)) :=
  let? key := py_getitem h "ip" in
  let? ports := py_getitem h "open_ports" in
  let? port_set := py_set ports in
  let? k := py_hash key in
  Ok (<[k := port_set]> m).

Definition build_old_map (old : json) : result (gmap atom (gset atom)) :=
  let? hs := py_iter old in
  for_each old_map_entry hs ∅.

(** The body of [for host in current]. *)
Definition compare_host (old_map : gmap atom (gset atom))
    (changes : list ChangeRecord) (host : ScanRecord) : result (list ChangeRecord) :=
  let host_ip := ip host in
  let new_ports : gset atom := list_to_set (AInt <$> open_ports host) in
  let old_ports : gset atom := default ∅ (old_map !! AStr host_ip) in
  let added := new_ports ∖ old_ports in
  let removed := old_ports ∖ new_ports in
  if decide (added ≠ ∅ ∨ removed ≠ ∅)
  then
    let? added_sorted := py_sorted (elements added) in
    let? removed_sorted := py_sorted (elements removed) in
    Ok (changes ++ [mkChange host_ip added_sorted removed_sorted (scanned_at host)])
  else Ok changes.

(** Lines 122 to 137: what runs once the baseline is loaded. *)
Definition compare_loaded (current : list ScanRecord) (old : json) : result (list ChangeRecord) :=
  let? old_map := build_old_map old in
  for_each (compare_host old_map) current [].

(** The [try] covers the [open] and the [json.load] only; its handler
    prints and returns the empty list ([loaded = None]). *)
Definition compare_with_baseline (current : list ScanRecord)
    (baseline_path : option string) : M (list ChangeRecord) :=
  match baseline_path with
  | None => ret []
  | Some path =>
      if decide (path = "") then ret []
      else
        let* loaded :=
          try_M
            (let* old := load_json path in ret (Some old))
            (λ _, let* _ := print ("[!] Could not load baseline: " ++ path) in
                  ret None) in
        match loaded with
        | None => ret []
        | Some old => lift (compare_loaded current old)
        end
  end.

(** ** Main *)

(** The namespace [argparse] returns. *)
Record Args : Type := mkArgs {
  arg_range : option string;
  arg_ports : option string;
  arg_output : string;
  arg_baseline : option string;
}.

(** [x or d] on an optional string: [None] and [""] are falsy. *)
Definition str_or (x : option string) (d : string) : string :=
  match x with
  | Some s => if decide (s = "") then d else s
  | None => d
  end.

(** Line 152.  Without [--ports] the default list is joined, split and
    read back, which gives [DEFAULT_PORTS] again. *)
Definition resolve_ports (env : Env) (arg : option string) : result (list Z) :=
  match arg with
  | None => Ok DEFAULT_PORTS
  | Some s =>
      if decide (s = "") then Ok DEFAULT_PORTS
      else match parse_ports env s with
           | Some ports => Ok ports
           | None => Raise ValueError
           end
  end.

(** Lines 163 to 167: [for ip in live_hosts], with its variable
    [results]. *)
Fixpoint scan_hosts (env : Env) (live_hosts : list string) (ports : list Z)
    (results : list ScanRecord) : M (list ScanRecord) :=
  match live_hosts with
  | [] => ret results
  | host :: rest =>
      let* _ := print ("    Scanning " ++ host ++ "...") in
      let* result := scan_host_ports env host ports in
      scan_hosts env rest ports (results ++ [result])
  end.

(** The line feed that opens the last message. *)
Definition newline : string :=
  String (Ascii.ascii_of_nat 10) "".

(** Line 151: [args.range or get_local_network()]. *)
Definition network_of (env : Env) (args : Args) : string :=
  str_or (arg_range args) (get_local_network env).

(** Lines 169 to 184: the blocks [# Export] and [# Compare]. *)
Definition export_and_compare (env : Env) (args : Args) (results : list ScanRecord) : M unit :=
  let json_path := (arg_output args ++ ".json")%string in
  let csv_path := (arg_output args ++ ".csv")%string in
  let* _ := save_json env (json_of_results results) json_path in
  let* _ := save_csv env results csv_path in
  let* changes := compare_with_baseline results (arg_baseline args) in
  let* _ :=
    match changes with
    | _ :: _ =>
        let change_path := (arg_output args ++ "_changes.json")%string in
        let* _ := save_json env (json_of_changes changes) change_path in
        print ("[!] " ++ pretty (length changes) ++ " hosts changed! See "
                 ++ change_path)
    | [] => print "[+] No changes detected."
    end in
  print (newline ++ "Scan complete! Results in " ++ json_path ++ " and " ++ csv_path).

Definition main (env : Env) (args : Args) : M unit :=
  let network := network_of env args in
  let* ports := lift (resolve_ports env (arg_ports args)) in
  let* live_hosts := discover_hosts env network in
  match live_hosts with
  | [] => print "[!] No live hosts found."
  | _ :: _ =>
      let* _ := print ("[+] Found " ++ pretty (length live_hosts)
                         ++ " live hosts. Scanning ports...") in
      let* results := scan_hosts env live_hosts ports [] in
      export_and_compare env args results
  end.

(** ** What the properties are stated with *)

(** *** The baseline differ, in the words of its description *)

(** The ports the baseline records for a host: those of its entry, the
    later one when the baseline names the host twice, and no port when
    it does not name the host at all. *)
Definition baseline_ports (baseline : list ScanRecord) (host_ip : string) : gset Z :=
  match last (filter (λ b, ip b = host_ip) baseline) with
  | Some b => list_to_set (open_ports b)
  | None => ∅
  end.

(** A port set as the script stores it in a record: ascending. *)
Definition port_list (ports : gset Z) : list atom :=
  AInt <$> merge_sort Z.le (elements ports).

(** The change to report for one host of the current scan, if any. *)
Definition expected_change (baseline : list ScanRecord) (host : ScanRecord) : option ChangeRecord :=
  let current_ports : gset Z := list_to_set (open_ports host) in
  let added := current_ports ∖ baseline_ports baseline (ip host) in
  let removed := baseline_ports baseline (ip host) ∖ current_ports in
  if decide (added ≠ ∅ ∨ removed ≠ ∅)
  then Some (mkChange (ip host) (port_list added) (port_list removed) (scanned_at host))
  else None.

(** A set of integers as a set of hashable values. *)
Definition ints (ports : gset Z) : gset atom := set_map AInt ports.

(** The dict that the comprehension builds from a well-shaped baseline. *)
Definition old_map_of (baseline : list ScanRecord) : gmap atom (gset atom) :=
  foldl (λ m b, <[AStr (ip b) := list_to_set (AInt <$> open_ports b)]> m) ∅ baseline.

(** *** Host addresses by value *)

Definition dot : Ascii.ascii := Ascii.ascii_of_nat 46.

Fixpoint split_dots (s : string) : list string :=
  match s with
  | EmptyString => [EmptyString]
  | String c s' =>
      if decide (c = dot) then EmptyString :: split_dots s'
      else match split_dots s' with
           | [] => [String c EmptyString]
           | x :: xs => String c x :: xs
           end
  end.

Fixpoint digits_value (s : string) (acc : Z) : option Z :=
  match s with
  | EmptyString => Some acc
  | String c s' =>
      match Ascii.is_nat c with
      | Some d => digits_value s' (10 * acc + Z.of_nat d)
      | None => None
      end
  end.

Definition octet (s : string) : option Z :=
  if decide (s = "") then None
  else match digits_value s 0 with
       | Some v => if decide (v ≤ 255)%Z then Some v else None
       | None => None
       end.

(** The 32-bit value of a dotted-quad IPv4 address. *)
Definition ipv4_value (s : string) : option Z :=
  match octet <$> split_dots s with
  | [Some a; Some b; Some c; Some d] => Some (((a * 256 + b) * 256 + c) * 256 + d)
  | _ => None
  end.

(** Ascending by address value. *)
Definition ipv4_le (x y : string) : Prop :=
  match ipv4_value x, ipv4_value y with
  | Some a, Some b => (a ≤ b)%Z
  | _, _ => False
  end.

Global Instance ipv4_le_dec : RelDecision ipv4_le.
Proof. intros x y. unfold ipv4_le. repeat case_match; apply _. Defined.

(** *** Threads in flight *)

(** The threads started and not yet joined.  A thread runs from its
    [start] to some moment before its [join] returns, so this list
    holds every thread that may be running. *)
Definition alive_step (live : list nat) (ev : thread_event) : list nat :=
  match ev with
  | Started t => live ++ [t]
  | Joined t => filter (λ x, x ≠ t) live
  end.

Definition alive (live : list nat) (trace : list thread_event) : list nat :=
  foldl alive_step live trace.

Definition in_flight (trace : list thread_event) : nat :=
  length (alive [] trace).

(** Never more than [limit] threads alive along [trace], starting with
    the threads [live]. *)
Definition bounded (limit : nat) (live : list nat) (trace : list thread_event) : Prop :=
  ∀ pre, pre `prefix_of` trace → (length (alive live pre) ≤ limit)%nat.

(** One batch: every thread of it started, then every thread joined. *)
Definition batch_events (batch : list nat) : list thread_event :=
  (Started <$> batch) ++ (Joined <$> batch).

(** *** Connect attempts *)

(** What one probe thread leaves in the shared set. *)
Definition probe (env : Env) (ip : string) (open_ports : gset Z) (att : nat * Z) : gset Z :=
  match scan_port env att.1 ip att.2 open_ports with
  | Ok s => s
  | Raise _ => open_ports
  end.

(** What [scan_port] adds to the shared set when its attempt is number
    [tid]. *)
Definition hit (env : Env) (ip : string) (tid : nat) (port : Z) : gset Z :=
  match connect_ex env tid ip port with
  | ConnectReturned 0 => {[port]}
  | _ => ∅
  end.

(** The attempts of one host scan that starts at [t0]: the number of
    each attempt with the port it targets. *)
Definition attempts (t0 : nat) (ports : list Z) : list (nat * Z) :=
  imap (λ i port, ((t0 + i)%nat, port)) ports.

(** The ports of [ports] with an attempt that connected. *)
Definition connected (env : Env) (ip : string) (t0 : nat) (ports : list Z) : gset Z :=
  list_to_set
    (omap (λ att : nat * Z,
             match connect_ex env att.1 ip att.2 with
             | ConnectReturned 0 => Some att.2
             | _ => None
             end)
          (attempts t0 ports)).

(** *** Files *)

(** A step that leaves the file at [path] as it is. *)
Definition keeps (path : string) {A} (m : M A) : Prop :=
  ∀ w, fs (m w).2 !! path = fs w !! path.

(** ** Sample data

    Port 80 closed and port 8080 opened on 10.0.0.5 since the baseline
    was taken; 10.0.0.7 is in the baseline only. *)

Definition sample_baseline : list ScanRecord :=
  [mkScan "10.0.0.5" [22; 80] "2024-05-01T09:00:00";
   mkScan "10.0.0.7" [443] "2024-05-01T09:00:02"].

Definition sample_current : list ScanRecord :=
  [mkScan "10.0.0.5" [22; 8080] "2024-05-02T09:00:00"].

Definition sample_change : ChangeRecord :=
  mkChange "10.0.0.5" [AInt 8080] [AInt 80] "2024-05-02T09:00:00".

(** A world whose [baseline.json] holds [old]. *)
Definition world_with_baseline (old : file) : World :=
  mkWorld {["baseline.json" := old]} [] [] 0.

Definition sample_world : World :=
  world_with_baseline (JsonDoc (json_of_results sample_baseline)).

(** A network with two hosts, answering the sweep in the order
    10.0.0.9, 10.0.0.10; on either host port 22 accepts, port 80
    refuses ([ECONNREFUSED], 111), the attempt on port 443 raises and
    every other port times out ([EAGAIN], 11). *)
Definition sample_env : Env :=
  mkEnv "192.168.1.0/24"
    (λ _, None)
    (λ _, Ok ["10.0.0.9"; "10.0.0.10"])
    (λ _ _ port,
       if decide (port = 22) then ConnectReturned 0
       else if decide (port = 80) then ConnectReturned 111
       else if decide (port = 443) then ConnectRaised
       else ConnectReturned 11)
    (λ t, ("T" ++ pretty t)%string)
    (λ _, true).

(** The same network when no host answers. *)
Definition silent_env : Env :=
  mkEnv (get_local_network sample_env) (parse_ports sample_env) (λ _, Ok [])
    (connect_ex sample_env) (now sample_env) (writable sample_env).

Definition empty_world : World := mkWorld ∅ [] [] 0.

Definition default_args : Args := mkArgs None None "scan" None.

(** A run that is given a baseline file. *)
Definition baseline_args : Args := mkArgs None None "scan" (Some "baseline.json").

(** A baseline that is valid JSON of another shape: its one entry has
    no ["open_ports"]. *)
Definition malformed_baseline : json := JArr [JObj [("ip", JStr "10.0.0.5")]].

(** What the sample network yields for the default ports. *)
Definition sample_results : list ScanRecord :=
  [mkScan "10.0.0.10" [22] "T6"; mkScan "10.0.0.9" [22] "T13"].

(** ** Local network detection

    [get_local_network], lines 32 to 45.  [netifaces] is given by what
    it reports: for each interface, in the order of
    [netifaces.interfaces()], the [AF_INET] entry of
    [ifaddresses(iface)], [None] when the interface has no such entry,
    and in it one dict per address.  [ip_network text] is
    [str(ipaddress.ip_network(text, strict=False))], or the exception
    it raises. *)

Module LocalNetwork.

(** The dict of one address: its ['addr'] and ['netmask'] entries, when
    it has them. *)
Record address : Type := mkAddress {
  addr : option string;
  netmask : option string;
}.

Definition FALLBACK : string := "192.168.1.0/24".

(** [d[key]] on such a dict *)
Definition getitem (entry : option string) : result string :=
  match entry with
  | Some v => Ok v
  | None => Raise KeyError
  end.

(** [not ip.startswith('127.') and mask] *)
Definition usable (ip mask : string) : bool :=
  negb (String.prefix "127." ip) && negb (bool_decide (mask = "")).

(** The loop over the addresses of one interface: [Some network] when
    it returns from the function, [None] when it runs to its end. *)
Fixpoint scan_addresses (ip_network : string → result string)
    (addrs : list address) : result (option string) :=
  match addrs with
  | [] => Ok None
  | a :: rest =>
      let? ip := getitem (addr a) in
      let? mask := getitem (netmask a) in
      if usable ip mask
      then let? network := ip_network (ip ++ "/" ++ mask)%string in Ok (Some network)
      else scan_addresses ip_network rest
  end.

Fixpoint get_local_network (ip_network : string → result string)
    (interfaces : list (option (list address))) : result string :=
  match interfaces with
  | [] => Ok FALLBACK
  | None :: rest => get_local_network ip_network rest
  | Some addrs :: rest =>
      let? found := scan_addresses ip_network addrs in
      match found with
      | Some network => Ok network
      | None => get_local_network ip_network rest
      end
  end.

(** Every address of every interface, in the order the loops visit
    them. *)
Definition addresses (interfaces : list (option (list address))) : list address :=
  interfaces ≫= default [].

(** An address with both entries, not on the loopback network, with a
    mask. *)
Definition candidate (a : address) : bool :=
  match addr a, netmask a with
  | Some ip, Some mask => usable ip mask
  | _, _ => false
  end.

Definition complete (a : address) : Prop :=
  is_Some (addr a) ∧ is_Some (netmask a).

(** What [ip_network] is asked for an address. *)
Definition network_text (a : address) : string :=
  (default "" (addr a) ++ "/" ++ default "" (netmask a))%string.

(** A machine with the loopback interface, an interface without IPv4
    and an Ethernet interface. *)
Definition sample_interfaces : list (option (list address)) :=
  [Some [mkAddress (Some "127.0.0.1") (Some "255.0.0.0")];
   None;
   Some [mkAddress (Some "10.1.2.3") (Some "255.255.255.0")]].

(** A stand-in for [ipaddress] that knows one network. *)
Definition sample_ip_network (text : string) : result string :=
  if decide (text = "10.1.2.3/255.255.255.0") then Ok "10.1.2.0/24"
  else Raise ValueError.

End LocalNetwork.

(** ** More notions for the properties *)

(** A step that starts and joins no thread and makes no observation. *)
Definition quiet {A} (m : M A) : Prop :=
  ∀ w, thread_log (m w).2 = thread_log w ∧ clock (m w).2 = clock w.

(** *** The baselines that the dict comprehension accepts *)

Definition hashable (v : json) : bool :=
  match v with
  | JArr _ | JObj _ => false
  | JNull | JBool _ | JInt _ | JStr _ => true
  end.

(** Something [set] can be built from: a list of hashable items, a
    dict or a string. *)
Definition set_source (v : json) : bool :=
  match v with
  | JArr items => forallb hashable items
  | JObj _ | JStr _ => true
  | JNull | JBool _ | JInt _ => false
  end.

(** An entry of the baseline: a dict with a hashable ["ip"] and an
    ["open_ports"] that [set] accepts. *)
Definition well_shaped_entry (h : json) : bool :=
  match h with
  | JObj members =>
      match assoc "ip" members, assoc "open_ports" members with
      | Some key, Some ports => hashable key && set_source ports
      | _, _ => false
      end
  | _ => false
  end.

(** A baseline: a list of entries; or something that iterates to
    nothing, the empty dict and the empty string. *)
Definition well_shaped (old : json) : bool :=
  match old with
  | JArr items => forallb well_shaped_entry items
  | JObj members => bool_decide (members = [])
  | JStr s => bool_decide (s = "")
  | JNull | JBool _ | JInt _ => false
  end.

(** The record that reports every open port of a host as added. *)
Definition all_added (host : ScanRecord) : option ChangeRecord :=
  match open_ports host with
  | [] => None
  | _ :: _ =>
      Some (mkChange (ip host) (port_list (list_to_set (open_ports host))) []
              (scanned_at host))
  end.

(** The files of a run that exported [results]. *)
Definition exported (args : Args) (results : list ScanRecord) (files : gmap string file)
    : gmap string file :=
  <[(arg_output args ++ ".csv")%string := CsvDoc ["ip"; "open_ports"; "scanned_at"] results]>
    (<[(arg_output args ++ ".json")%string := JsonDoc (json_of_results results)]> files).


Definition readonly_env : Env :=
  mkEnv (get_local_network sample_env) (parse_ports sample_env) (srp sample_env)
    (connect_ex sample_env) (now sample_env) (λ _, false).

(** * Properties *)

(** ** Python primitives *)

Section python.

Lemma elem_of_ints a (ports : gset Z) : a ∈ ints ports ↔ ∃ n, a = AInt n ∧ n ∈ ports.
Proof. unfold ints. by rewrite elem_of_map. Qed.

Lemma ints_list_to_set (l : list Z) : list_to_set (AInt <$> l) = ints (list_to_set l).
Proof.
  apply set_eq. intros a.
  rewrite elem_of_ints, elem_of_list_to_set, list_elem_of_fmap.
  by setoid_rewrite elem_of_list_to_set.
Qed.

Lemma ints_difference (X Y : gset Z) : ints X ∖ ints Y = ints (X ∖ Y).
Proof.
  apply set_eq. intros a.
  rewrite elem_of_difference, !elem_of_ints.
  setoid_rewrite elem_of_difference. naive_solver.
Qed.

Lemma ints_empty : ints ∅ = ∅.
Proof. apply set_eq. intros a. rewrite elem_of_ints. set_solver. Qed.

Lemma ints_empty_iff (X : gset Z) : ints X = ∅ ↔ X = ∅.
Proof.
  split; [|intros ->; apply ints_empty].
  intros HX. apply set_eq. intros n. split; [|set_solver].
  intros Hn. assert (AInt n ∈ ints X) as Hin by (apply elem_of_ints; eauto).
  rewrite HX in Hin. set_solver.
Qed.

Lemma elements_ints (X : gset Z) : elements (ints X) ≡ₚ AInt <$> elements X.
Proof.
  apply NoDup_Permutation.
  - apply NoDup_elements.
  - apply NoDup_fmap_2; [apply _|apply NoDup_elements].
  - intros a. rewrite elem_of_elements, elem_of_ints, list_elem_of_fmap.
    by setoid_rewrite elem_of_elements.
Qed.

(** [set(ports)] of a list of integers *)
Lemma py_set_ints (l : list Z) :
  py_set (JArr (JInt <$> l)) = Ok (list_to_set (AInt <$> l)).
Proof.
  unfold py_set. simpl.
  assert (∀ s : gset atom,
    for_each (λ s x, let? a := py_hash x in Ok ({[a]} ∪ s)) (JInt <$> l) s
    = Ok (list_to_set (AInt <$> l) ∪ s)) as Hgen.
  { induction l as [|n l IH]; intros s; simpl.
    - f_equal. set_solver.
    - rewrite IH. f_equal. set_solver. }
  rewrite Hgen. f_equal. set_solver.
Qed.

Lemma merge_sort_Z_perm (xs ys : list Z) :
  xs ≡ₚ ys → merge_sort Z.le xs = merge_sort Z.le ys.
Proof.
  intros Hperm. apply (Sorted_unique Z.le).
  - apply Sorted_merge_sort; apply _.
  - apply Sorted_merge_sort; apply _.
  - by rewrite !merge_sort_Permutation.
Qed.

(** [sorted] is modelled by a merge sort.  Any procedure that returns
    the items in ascending order returns the same list, for integers
    and for strings, so the choice of the algorithm does not show. *)
Lemma sorted_int_canonical (xs ys : list Z) :
  Sorted Z.le ys → ys ≡ₚ xs → ys = merge_sort Z.le xs.
Proof.
  intros Hsorted Hperm. apply (Sorted_unique Z.le); [done| |].
  - apply Sorted_merge_sort; apply _.
  - by rewrite merge_sort_Permutation.
Qed.

Lemma sorted_str_canonical (xs ys : list string) :
  Sorted String.le ys → ys ≡ₚ xs → ys = merge_sort String.le xs.
Proof.
  intros Hsorted Hperm. apply (Sorted_unique String.le); [done| |].
  - apply Sorted_merge_sort; apply _.
  - by rewrite merge_sort_Permutation.
Qed.

Lemma mapM_as_int (ns : list Z) : mapM as_int (AInt <$> ns) = Some ns.
Proof. apply mapM_fmap_Some. by intros n. Qed.

Lemma mapM_as_int_inv xs ns : mapM as_int xs = Some ns → xs = AInt <$> ns.
Proof.
  intros H%mapM_Some_1. induction H as [|a n xs ns Ha _ IH]; simpl; [done|].
  destruct a; simplify_eq/=. by f_equal.
Qed.

Lemma mapM_as_str_inv xs ss : mapM as_str xs = Some ss → xs = AStr <$> ss.
Proof.
  intros H%mapM_Some_1. induction H as [|a n xs ns Ha _ IH]; simpl; [done|].
  destruct a; simplify_eq/=. by f_equal.
Qed.

(** [sorted] rearranges, it neither drops nor adds. *)
Lemma py_sorted_Permutation xs ys : py_sorted xs = Ok ys → ys ≡ₚ xs.
Proof.
  unfold py_sorted. intros H.
  destruct (mapM as_int xs) as [ns|] eqn:Hints.
  { apply mapM_as_int_inv in Hints. simplify_eq.
    by rewrite merge_sort_Permutation. }
  destruct (mapM as_str xs) as [ss|] eqn:Hstrs.
  { apply mapM_as_str_inv in Hstrs. simplify_eq.
    by rewrite merge_sort_Permutation. }
  case_decide; by simplify_eq.
Qed.

(** [sorted] of integers, in whatever order the set hands them over *)
Lemma py_sorted_ints xs (ns : list Z) :
  xs ≡ₚ AInt <$> ns → py_sorted xs = Ok (AInt <$> merge_sort Z.le ns).
Proof.
  intros Hperm. unfold py_sorted.
  assert (xs = AInt <$> omap as_int xs) as Hxs.
  { assert (Forall (λ a, ∃ n, a = AInt n) xs) as Hall.
    { rewrite Hperm. apply Forall_fmap, Forall_true. intros z. by exists z. }
    clear Hperm. induction Hall as [|a xs' [n ->] _ IH]; csimpl; [done|].
    by f_equal. }
  assert (omap as_int xs ≡ₚ ns) as Hns.
  { rewrite Hperm. clear. induction ns; csimpl; [done|]. by f_equiv. }
  rewrite Hxs at 1. rewrite mapM_as_int.
  by rewrite (merge_sort_Z_perm _ _ Hns).
Qed.

Lemma py_sorted_port_set (X : gset Z) : py_sorted (elements (ints X)) = Ok (port_list X).
Proof. apply py_sorted_ints, elements_ints. Qed.

End python.

(** ** The baseline comparison *)

Section differ.

Implicit Types current baseline : list ScanRecord.
Implicit Types old_map : gmap atom (gset atom).

Lemma for_each_invariant {A S} (I : S → Prop) (body : S → A → result S) xs s s' :
  (∀ s1 x s2, x ∈ xs → I s1 → body s1 x = Ok s2 → I s2) →
  I s → for_each body xs s = Ok s' → I s'.
Proof.
  revert s. induction xs as [|x xs IH]; intros s Hbody Hs Hrun; simpl in *.
  - by simplify_eq.
  - destruct (body s x) as [s1|] eqn:Hx; simpl in *; [|done].
    apply (IH s1); [|by eapply Hbody; [left|..]|done].
    intros ??? Hin. apply Hbody. by right.
Qed.

(** *** A baseline of the expected shape *)

Lemma old_map_entry_scan old_map b :
  old_map_entry old_map (json_of_scan b)
  = Ok (<[AStr (ip b) := list_to_set (AInt <$> open_ports b)]> old_map).
Proof.
  unfold old_map_entry, json_of_scan, py_getitem. simpl.
  by rewrite py_set_ints.
Qed.

Lemma build_old_map_results baseline :
  build_old_map (json_of_results baseline) = Ok (old_map_of baseline).
Proof.
  unfold build_old_map, json_of_results, old_map_of. simpl.
  generalize (∅ : gmap atom (gset atom)).
  induction baseline as [|b baseline IH]; intros m; csimpl; [done|].
  rewrite old_map_entry_scan. simpl. apply IH.
Qed.

(** The dict keeps, for each address, the entry stored last. *)
Lemma old_map_of_lookup baseline host_ip :
  default ∅ (old_map_of baseline !! AStr host_ip) = ints (baseline_ports baseline host_ip).
Proof.
  unfold old_map_of, baseline_ports.
  induction baseline as [|b baseline IH] using rev_ind.
  { simpl. by rewrite lookup_empty, ints_empty. }
  rewrite foldl_snoc, filter_app, lookup_insert.
  destruct (decide (ip b = host_ip)) as [Heq|Hne].
  - rewrite decide_True by congruence.
    rewrite filter_cons_True, filter_nil by done.
    rewrite last_snoc. simpl. apply ints_list_to_set.
  - rewrite decide_False by congruence.
    rewrite filter_cons_False, filter_nil by done.
    by rewrite app_nil_r.
Qed.

Lemma compare_host_well_shaped baseline changes host :
  compare_host (old_map_of baseline) changes host
  = Ok (changes ++ option_list (expected_change baseline host)).
Proof.
  unfold compare_host, expected_change.
  rewrite old_map_of_lookup, ints_list_to_set, !ints_difference.
  set (added := list_to_set (open_ports host) ∖ baseline_ports baseline (ip host)).
  set (removed := baseline_ports baseline (ip host) ∖ list_to_set (open_ports host)).
  destruct (decide (added ≠ ∅ ∨ removed ≠ ∅)) as [Hchg|Hsame].
  - rewrite decide_True by (rewrite !ints_empty_iff; done).
    by rewrite !py_sorted_port_set.
  - rewrite decide_False by (rewrite !ints_empty_iff; done).
    simpl. by rewrite app_nil_r.
Qed.

Lemma compare_loop_well_shaped baseline current changes :
  for_each (compare_host (old_map_of baseline)) current changes
  = Ok (changes ++ omap (expected_change baseline) current).
Proof.
  revert changes. induction current as [|host current IH]; intros changes; csimpl.
  - by rewrite app_nil_r.
  - rewrite compare_host_well_shaped. simpl. rewrite IH. f_equal.
    rewrite <-app_assoc. f_equal. by destruct (expected_change baseline host).
Qed.

Lemma compare_loaded_well_shaped current baseline :
  compare_loaded current (json_of_results baseline)
  = Ok (omap (expected_change baseline) current).
Proof.
  unfold compare_loaded. rewrite build_old_map_results. simpl.
  apply compare_loop_well_shaped.
Qed.

(** *** Any baseline *)

(** What one round of the loop can do to [changes]. *)
Lemma compare_host_inv old_map changes host changes' :
  compare_host old_map changes host = Ok changes' →
  changes' = changes ∨
  ∃ change, changes' = changes ++ [change] ∧
    change_ip change = ip host ∧
    detected_at change = scanned_at host ∧
    (∀ p, p ∈ added_ports change → p ∉ removed_ports change).
Proof.
  unfold compare_host. intros Hrun. case_decide; [|left; by simplify_eq].
  destruct (py_sorted (elements (_ ∖ _))) as [added|] eqn:Hadded; simpl in *; [|done].
  destruct (py_sorted (elements (_ ∖ _))) as [removed|] eqn:Hremoved in Hrun;
    simpl in *; [|done].
  right. eexists. split; [by simplify_eq|]. simpl. split_and!; [done..|].
  intros p. apply py_sorted_Permutation in Hadded, Hremoved.
  rewrite Hadded, Hremoved, !elem_of_elements. set_solver.
Qed.

Lemma compare_loaded_Forall (P : ChangeRecord → Prop) current old changes :
  (∀ host change,
     host ∈ current → change_ip change = ip host →
     detected_at change = scanned_at host →
     (∀ p, p ∈ added_ports change → p ∉ removed_ports change) →
     P change) →
  compare_loaded current old = Ok changes → Forall P changes.
Proof.
  unfold compare_loaded. intros HP Hrun.
  destruct (build_old_map old) as [old_map|]; simpl in *; [|done].
  revert Hrun. apply for_each_invariant; [|done].
  intros acc host acc' Hin Hacc [->|(change & -> & ? & ? & ?)]%compare_host_inv; [done|].
  apply Forall_app. split; [done|]. apply Forall_singleton. eauto.
Qed.

(** *** Reading the file *)

Lemma compare_with_baseline_loaded current path old w :
  path ≠ "" → fs w !! path = Some (JsonDoc old) →
  compare_with_baseline current (Some path) w = (compare_loaded current old, w).
Proof.
  intros Hpath Hfile. unfold compare_with_baseline.
  rewrite decide_False by done.
  unfold bind, try_M, load_json, ret, lift. by rewrite Hfile.
Qed.

(** An exception of the comparison proper is not caught. *)
Lemma compare_with_baseline_raises current path old w e :
  path ≠ "" → fs w !! path = Some (JsonDoc old) →
  compare_loaded current old = Raise e →
  compare_with_baseline current (Some path) w = (Raise e, w).
Proof.
  intros Hpath Hfile Hraise.
  by rewrite (compare_with_baseline_loaded _ _ _ _ Hpath Hfile), Hraise.
Qed.

Lemma compare_with_baseline_unreadable current path w :
  path ≠ "" → (∀ old, fs w !! path ≠ Some (JsonDoc old)) →
  compare_with_baseline current (Some path) w
  = (Ok [], mkWorld (fs w) (stdout w ++ [("[!] Could not load baseline: " ++ path)%string])
              (thread_log w) (clock w)).
Proof.
  intros Hpath Hfile. unfold compare_with_baseline.
  rewrite decide_False by done.
  unfold bind, try_M, load_json, ret, lift, print.
  destruct (fs w !! path) as [[old| |]|] eqn:Hlookup; try done.
  by destruct (Hfile old).
Qed.

Lemma compare_with_baseline_inv current baseline_path w changes w' :
  compare_with_baseline current baseline_path w = (Ok changes, w') →
  changes = [] ∨ ∃ old, compare_loaded current old = Ok changes.
Proof.
  unfold compare_with_baseline. intros Hrun.
  destruct baseline_path as [path|]; [|left; unfold ret in Hrun; by simplify_eq].
  case_decide; [left; unfold ret in Hrun; by simplify_eq|].
  unfold bind, try_M, load_json, ret, lift, print in Hrun.
  destruct (fs w !! path) as [[old| |]|]; simplify_eq; eauto.
Qed.

End differ.

(** ** The baseline comparison: results *)

Section differ_results.

Implicit Types current baseline r : list ScanRecord.

Lemma filter_none {A} (P : A → Prop) `{∀ x, Decision (P x)} (l : list A) :
  (∀ x, x ∈ l → ¬ P x) → filter P l = [].
Proof.
  induction l as [|x l IH]; intros Hall; [done|].
  rewrite filter_cons_False by (apply Hall; left).
  apply IH. intros y Hy. apply Hall. by right.
Qed.

(** With one entry per host, the baseline ports of a host are those
    of its entry. *)
Lemma baseline_ports_NoDup r host :
  NoDup (ip <$> r) → host ∈ r →
  baseline_ports r (ip host) = list_to_set (open_ports host).
Proof.
  intros Hnodup Hin. unfold baseline_ports.
  assert (filter (λ b, ip b = ip host) r = [host]) as ->; [|done].
  induction r as [|b r IH]; [by apply elem_of_nil in Hin|].
  apply NoDup_cons in Hnodup as [Hb Hnodup].
  apply elem_of_cons in Hin as [->|Hin].
  - rewrite filter_cons_True by done. f_equal.
    apply filter_none. intros x Hx Heq.
    apply Hb. rewrite <-Heq. by apply list_elem_of_fmap_2.
  - rewrite filter_cons_False; [by apply IH|].
    intros Heq. apply Hb. rewrite Heq. by apply list_elem_of_fmap_2.
Qed.

Lemma omap_all_None {A B} (f : A → option B) (l : list A) :
  (∀ x, x ∈ l → f x = None) → omap f l = [].
Proof.
  induction l as [|x l IH]; intros Hall; csimpl; [done|].
  rewrite (Hall x) by left. apply IH. intros y Hy. apply Hall. by right.
Qed.

(** C1.  When the file at [path] holds a baseline result set, the
    comparison returns, for the hosts of [current] in their order,
    the changes of [expected_change]: [added] is the current ports
    minus the baseline ports, [removed] the baseline ports minus the
    current ports, the baseline ports of a host missing from the
    baseline being the empty set; a record is emitted exactly when
    [added] or [removed] is non-empty, and its [detected_at] is the
    [scanned_at] of the host's current record. *)
Theorem compare_with_baseline_diff current baseline path w :
  path ≠ "" →
  fs w !! path = Some (JsonDoc (json_of_results baseline)) →
  compare_with_baseline current (Some path) w
  = (Ok (omap (expected_change baseline) current), w).
Proof.
  intros Hpath Hfile.
  rewrite (compare_with_baseline_loaded _ _ _ _ Hpath Hfile).
  by rewrite compare_loaded_well_shaped.
Qed.

Lemma compare_with_baseline_diff_witness :
  compare_with_baseline sample_current (Some "baseline.json") sample_world
  = (Ok (omap (expected_change sample_baseline) sample_current), sample_world).
Proof. apply compare_with_baseline_diff; [done|reflexivity]. Defined.

(** The sample baseline against the sample scan, run. *)
Example compare_with_baseline_scenario :
  compare_with_baseline sample_current (Some "baseline.json") sample_world
  = (Ok [sample_change], sample_world).
Proof. vm_compute. reflexivity. Qed.

(** A host that the baseline does not name is reported with all its
    open ports added. *)
Example compare_with_baseline_new_host :
  compare_with_baseline [mkScan "10.0.0.9" [443; 80] "t"] (Some "baseline.json") sample_world
  = (Ok [mkChange "10.0.0.9" [AInt 80; AInt 443] [] "t"], sample_world).
Proof. vm_compute. reflexivity. Qed.

(** C4.  Every record of the change set names a host of the current
    result set: a host that is absent from [current], whatever the
    baseline says about it, gets no ChangeRecord. *)
Theorem vanished_host_not_reported current baseline_path w changes w' host_ip :
  compare_with_baseline current baseline_path w = (Ok changes, w') →
  host_ip ∉ ip <$> current →
  host_ip ∉ change_ip <$> changes.
Proof.
  intros Hrun Habsent Hin.
  apply compare_with_baseline_inv in Hrun as [->|[old Hrun]].
  { by apply elem_of_nil in Hin. }
  apply (compare_loaded_Forall (λ change, change_ip change ∈ ip <$> current)) in Hrun.
  - apply list_elem_of_fmap in Hin as (change & -> & Hin).
    rewrite Forall_forall in Hrun. by apply Habsent, Hrun.
  - intros host change Hhost -> _ _. by apply list_elem_of_fmap_2.
Qed.

Lemma vanished_host_not_reported_witness :
  "10.0.0.7" ∉ change_ip <$> [sample_change].
Proof.
  apply (vanished_host_not_reported sample_current (Some "baseline.json")
           sample_world [sample_change] sample_world).
  - vm_compute. reflexivity.
  - compute_done.
Defined.

(** C5.  A result set with one record per host, compared with
    itself, gives the empty change set. *)
Theorem compare_with_itself r path w :
  NoDup (ip <$> r) →
  path ≠ "" →
  fs w !! path = Some (JsonDoc (json_of_results r)) →
  compare_with_baseline r (Some path) w = (Ok [], w).
Proof.
  intros Hnodup Hpath Hfile.
  rewrite (compare_with_baseline_loaded _ _ _ _ Hpath Hfile).
  rewrite compare_loaded_well_shaped. do 2 f_equal.
  apply omap_all_None. intros host Hin. unfold expected_change.
  rewrite (baseline_ports_NoDup _ _ Hnodup Hin).
  apply decide_False. set_solver.
Qed.

Lemma compare_with_itself_witness :
  compare_with_baseline sample_baseline (Some "baseline.json") sample_world
  = (Ok [], sample_world).
Proof.
  apply compare_with_itself; [compute_done|done|reflexivity].
Defined.

(** With two records for one host the self-comparison is not empty:
    the dict keeps the later record, and the earlier one differs
    from it. *)
Example compare_with_itself_duplicate_host :
  let r := [mkScan "10.0.0.5" [22] "t0"; mkScan "10.0.0.5" [80] "t1"] in
  compare_with_baseline r (Some "baseline.json")
    (world_with_baseline (JsonDoc (json_of_results r)))
  = (Ok [mkChange "10.0.0.5" [AInt 22] [AInt 80] "t0"],
     world_with_baseline (JsonDoc (json_of_results r))).
Proof. vm_compute. reflexivity. Qed.

(** C9.  Without a baseline path, [None] or the empty string, the
    comparison returns the empty change set and raises nothing. *)
Theorem no_baseline_no_changes current w :
  compare_with_baseline current None w = (Ok [], w) ∧
  compare_with_baseline current (Some "") w = (Ok [], w).
Proof. split; reflexivity. Qed.

(** C10.  In every record of the change set no port is both added
    and removed. *)
Theorem added_removed_disjoint current baseline_path w changes w' change p :
  compare_with_baseline current baseline_path w = (Ok changes, w') →
  change ∈ changes →
  p ∈ added_ports change →
  p ∉ removed_ports change.
Proof.
  intros Hrun Hin.
  apply compare_with_baseline_inv in Hrun as [->|[old Hrun]].
  { by apply elem_of_nil in Hin. }
  apply (compare_loaded_Forall
           (λ change, ∀ p, p ∈ added_ports change → p ∉ removed_ports change)) in Hrun.
  - rewrite Forall_forall in Hrun. by apply Hrun.
  - auto.
Qed.

Lemma added_removed_disjoint_witness :
  AInt 8080 ∉ removed_ports sample_change.
Proof.
  apply (added_removed_disjoint sample_current (Some "baseline.json")
           sample_world [sample_change] sample_world sample_change (AInt 8080)).
  - vm_compute. reflexivity.
  - left.
  - left.
Defined.

End differ_results.

(** ** The port probe *)

Section prober.

Context (env : Env) (ip : string).

(** [scan_port] never raises: the bare [except] swallows whatever the
    socket calls raise, and a non-zero [connect_ex] is not an
    exception to begin with. *)
Lemma scan_port_run tid port (open_ports : gset Z) :
  scan_port env tid ip port open_ports = Ok (hit env ip tid port ∪ open_ports).
Proof.
  unfold scan_port, scan_port_body, hit, try_except.
  destruct (connect_ex env tid ip port) as [| |code];
    [f_equal; set_solver..|].
  case_decide as Hcode; [by subst|].
  destruct code; [done|f_equal; set_solver..].
Qed.

Lemma probe_run (open_ports : gset Z) att :
  probe env ip open_ports att = hit env ip att.1 att.2 ∪ open_ports.
Proof. unfold probe. by rewrite scan_port_run. Qed.

Lemma attempts_cons t0 port ports :
  attempts t0 (port :: ports) = (t0, port) :: attempts (S t0) ports.
Proof.
  unfold attempts. simpl. f_equal; [f_equal; lia|].
  apply imap_ext. intros i x _. simpl. f_equal. lia.
Qed.

Lemma connected_cons t0 port ports :
  connected env ip t0 (port :: ports) = hit env ip t0 port ∪ connected env ip (S t0) ports.
Proof.
  unfold connected. rewrite attempts_cons. csimpl. unfold hit.
  destruct (connect_ex env t0 ip port) as [| |[| |]]; set_solver.
Qed.

Lemma elem_of_connected t0 ports port :
  port ∈ connected env ip t0 ports ↔
  ∃ i, ports !! i = Some port ∧ connect_ex env (t0 + i) ip port = ConnectReturned 0.
Proof.
  revert t0. induction ports as [|q ports IH]; intros t0.
  { unfold connected, attempts. simpl. split; [set_solver|by intros (i & ? & _)]. }
  rewrite connected_cons, elem_of_union, IH. unfold hit. split.
  - intros [Hhit|(i & Hi & Hconn)].
    + exists 0%nat. rewrite Nat.add_0_r.
      destruct (connect_ex env t0 ip q) as [| |[| |]] eqn:Hq; set_solver.
    + exists (S i). split; [done|]. by rewrite Nat.add_succ_r.
  - intros ([|i] & Hi & Hconn); simpl in *.
    + left. simplify_eq. rewrite Nat.add_0_r in Hconn. rewrite Hconn. set_solver.
    + right. exists i. split; [done|]. by rewrite Nat.add_succ_r in Hconn.
Qed.

(** The set after the writes of a list of attempts, taken in the
    order of the list. *)
Lemma probes_run (open_ports : gset Z) t0 ports :
  foldl (probe env ip) open_ports (attempts t0 ports)
  = connected env ip t0 ports ∪ open_ports.
Proof.
  revert t0 open_ports. induction ports as [|q ports IH]; intros t0 open_ports.
  { unfold connected, attempts. simpl. set_solver. }
  rewrite attempts_cons, connected_cons. simpl.
  rewrite IH, probe_run. simpl. set_solver.
Qed.

(** The threads of a batch may write in any order: the set that
    [scan_host_ports] reads after the joins is the same. *)
Lemma scan_port_schedule (open_ports : gset Z) (atts atts' : list (nat * Z)) :
  atts ≡ₚ atts' →
  foldl (probe env ip) open_ports atts = foldl (probe env ip) open_ports atts'.
Proof.
  intros Hperm. revert open_ports.
  induction Hperm as [|a l l' _ IH|a b l|l1 l2 l3 _ IH1 _ IH2]; intros s; simpl.
  - done.
  - apply IH.
  - f_equal. rewrite !probe_run. set_solver.
  - by rewrite IH1.
Qed.

(** *** Threads alive along a trace *)

Lemma alive_app live tr1 tr2 : alive live (tr1 ++ tr2) = alive (alive live tr1) tr2.
Proof. apply foldl_app. Qed.

Lemma bounded_nil limit live : (length live ≤ limit)%nat → bounded limit live [].
Proof. intros Hlen pre Hpre. by apply prefix_nil_inv in Hpre as ->. Qed.

Lemma bounded_cons limit live ev tr :
  (length live ≤ limit)%nat →
  bounded limit (alive_step live ev) tr →
  bounded limit live (ev :: tr).
Proof.
  intros Hlen Htr pre Hpre.
  destruct pre as [|ev' pre]; [done|].
  apply prefix_cons_inv_1 in Hpre as Hev. subst ev'.
  apply prefix_cons_inv_2 in Hpre. by apply Htr.
Qed.

Lemma bounded_cons_inv limit live ev tr :
  bounded limit live (ev :: tr) →
  (length live ≤ limit)%nat ∧ bounded limit (alive_step live ev) tr.
Proof.
  intros Htr. split.
  - apply (Htr []), prefix_nil.
  - intros pre Hpre. apply (Htr (ev :: pre)). by apply prefix_cons.
Qed.

Lemma bounded_app limit live tr1 tr2 :
  bounded limit live tr1 →
  bounded limit (alive live tr1) tr2 →
  bounded limit live (tr1 ++ tr2).
Proof.
  revert live. induction tr1 as [|ev tr1 IH]; intros live H1 H2; [done|].
  apply bounded_cons_inv in H1 as [Hlen H1].
  simpl. apply bounded_cons; [done|]. by apply IH.
Qed.

Lemma bounded_joins limit live threads :
  (length live ≤ limit)%nat → bounded limit live (Joined <$> threads).
Proof.
  revert live. induction threads as [|t threads IH]; intros live Hlen; csimpl.
  - by apply bounded_nil.
  - apply bounded_cons; [done|]. apply IH. simpl.
    etrans; [apply length_filter|done].
Qed.

Lemma alive_joins live threads :
  (∀ t, t ∈ live → t ∈ threads) → alive live (Joined <$> threads) = [].
Proof.
  revert live. induction threads as [|t threads IH]; intros live Hsub; csimpl.
  - destruct live as [|x live]; [done|]. destruct (not_elem_of_nil x). apply Hsub. left.
  - apply IH. intros x [Hne Hx]%list_elem_of_filter.
    apply Hsub in Hx. apply elem_of_cons in Hx as [->|Hx]; done.
Qed.

End prober.

Section prober_runs.

Context (env : Env) (ip : string).

Lemma THREADS_pos : (1 ≤ THREADS)%nat.
Proof. unfold THREADS. lia. Qed.

Lemma join_all_run threads w :
  join_all threads w
  = (Ok tt, mkWorld (fs w) (stdout w) (thread_log w ++ (Joined <$> threads)) (clock w)).
Proof.
  revert w. induction threads as [|t threads IH]; intros w; csimpl.
  - unfold ret. destruct w; simpl. by rewrite app_nil_r.
  - unfold bind, log_thread. rewrite IH. simpl. by rewrite <-app_assoc.
Qed.

Lemma thread_start_run port (open_ports : gset Z) w :
  thread_start env ip port open_ports w
  = (Ok (clock w, hit env ip (clock w) port ∪ open_ports),
     mkWorld (fs w) (stdout w) (thread_log w ++ [Started (clock w)]) (S (clock w))).
Proof.
  unfold thread_start, bind, tick, log_thread, lift, ret. simpl.
  by rewrite scan_port_run.
Qed.

(** The loop, from any of its states with room for one more thread:
    it ends without an exception; the set gains the ports that
    connected; neither files nor the console are touched; the
    threads alive never exceed [THREADS]; and the events, completed
    by the start of the pending threads before and the join of the
    pending threads after, split into batches. *)
Lemma scan_threads_run ports (open_ports : gset Z) threads w :
  (length threads < THREADS)%nat →
  ∃ trace threads' batches,
    scan_threads env ip ports open_ports threads w
    = (Ok (connected env ip (clock w) ports ∪ open_ports, threads'),
       mkWorld (fs w) (stdout w) (thread_log w ++ trace)
         (clock w + length ports)) ∧
    (length threads' < THREADS)%nat ∧
    bounded THREADS threads trace ∧
    alive threads trace = threads' ∧
    concat batches = threads ++ seq (clock w) (length ports) ∧
    Forall (λ batch, length batch ≤ THREADS)%nat batches ∧
    (Started <$> threads) ++ trace ++ (Joined <$> threads')
    = batches ≫= batch_events.
Proof.
  revert open_ports threads w.
  induction ports as [|port ports IH]; intros open_ports threads w Hlen.
  - exists [], threads, [threads]. split_and!.
    + simpl. unfold ret. f_equal.
      * f_equal. f_equal. unfold connected, attempts. simpl. set_solver.
      * destruct w; simpl. by rewrite app_nil_r, Nat.add_0_r.
    + done.
    + apply bounded_nil. lia.
    + done.
    + simpl. by rewrite !app_nil_r.
    + apply Forall_singleton. lia.
    + csimpl. by rewrite app_nil_r.
  - cbn [scan_threads]. unfold bind at 1. rewrite thread_start_run.
    cbn [fst snd].
    set (t := clock w).
    set (w1 := mkWorld (fs w) (stdout w) (thread_log w ++ [Started t]) (S t)).
    assert (length (threads ++ [t]) ≤ THREADS)%nat as Hlen1
      by (rewrite length_app; simpl; lia).
    case_decide as Hfull.
    + unfold bind. rewrite join_all_run.
      destruct (IH (hit env ip t port ∪ open_ports) []
                  (mkWorld (fs w1) (stdout w1)
                     (thread_log w1 ++ (Joined <$> threads ++ [t])) (clock w1)))
        as (trace & threads' & batches & Hrun & Hlen' & Hbound & Halive & Hcat & Hsize & Hsplit).
      { pose proof THREADS_pos. simpl. lia. }
      rewrite Hrun. clear Hrun.
      exists (Started t :: (Joined <$> threads ++ [t]) ++ trace), threads',
        ((threads ++ [t]) :: batches).
      assert (alive (threads ++ [t]) (Joined <$> threads ++ [t]) = []) as Hjoined
        by (by apply alive_joins).
      split_and!.
      * simpl. f_equal.
        -- do 2 f_equal. rewrite connected_cons. set_solver.
        -- f_equal; [|lia]. by rewrite <-!app_assoc.
      * done.
      * apply bounded_cons; [lia|]. simpl. apply bounded_app.
        -- by apply bounded_joins.
        -- by rewrite Hjoined.
      * simpl. by rewrite alive_app, Hjoined.
      * simpl in *. rewrite Hcat. by rewrite <-app_assoc.
      * by constructor.
      * csimpl. rewrite <-Hsplit. unfold batch_events. csimpl.
        rewrite !fmap_app. csimpl. by rewrite <-!app_assoc.
    + destruct (IH (hit env ip t port ∪ open_ports) (threads ++ [t]) w1)
        as (trace & threads' & batches & Hrun & Hlen' & Hbound & Halive & Hcat & Hsize & Hsplit).
      { lia. }
      rewrite Hrun. clear Hrun.
      exists (Started t :: trace), threads', batches.
      split_and!.
      * simpl. f_equal.
        -- do 2 f_equal. rewrite connected_cons. set_solver.
        -- f_equal; [|lia]. by rewrite <-!app_assoc.
      * done.
      * apply bounded_cons; [lia|done].
      * done.
      * simpl in *. rewrite Hcat. by rewrite <-app_assoc.
      * done.
      * rewrite <-Hsplit. rewrite !fmap_app. csimpl. by rewrite <-!app_assoc.
Qed.

End prober_runs.

(** ** The port probe: results *)

Section prober_results.

Context (env : Env) (ip : string).

Lemma scan_host_ports_run ports w :
  ∃ trace batches,
    scan_host_ports env ip ports w
    = (Ok (mkScan ip (merge_sort Z.le (elements (connected env ip (clock w) ports)))
             (now env (clock w + length ports))),
       mkWorld (fs w) (stdout w) (thread_log w ++ trace)
         (S (clock w + length ports))) ∧
    bounded THREADS [] trace ∧
    alive [] trace = [] ∧
    concat batches = seq (clock w) (length ports) ∧
    Forall (λ batch, length batch ≤ THREADS)%nat batches ∧
    trace = batches ≫= batch_events.
Proof.
  destruct (scan_threads_run env ip ports ∅ [] w)
    as (trace & threads' & batches & Hrun & Hlen' & Hbound & Halive & Hcat & Hsize & Hsplit).
  { pose proof THREADS_pos. simpl. lia. }
  exists (trace ++ (Joined <$> threads')), batches.
  assert (alive threads' (Joined <$> threads') = []) as Hjoined by (by apply alive_joins).
  split_and!.
  - unfold scan_host_ports, bind at 1. rewrite Hrun. cbn [fst snd].
    unfold bind at 1. rewrite join_all_run.
    unfold datetime_now, bind, tick, ret. simpl.
    rewrite (right_id_L ∅ (∪)). by rewrite <-app_assoc.
  - apply bounded_app; [done|]. rewrite Halive. apply bounded_joins. lia.
  - by rewrite alive_app, Halive.
  - done.
  - done.
  - by rewrite <-Hsplit.
Qed.

(** C6.  The thread events of one host scan split into batches of at
    most [THREADS] threads, every thread of a batch started and then
    every thread of it joined before the next batch starts; the
    batches cover the attempts in the order of the ports; and along
    the events never more than [THREADS] threads are alive, none at
    the end. *)
Theorem scan_host_ports_in_flight ports w :
  ∃ trace batches,
    thread_log (scan_host_ports env ip ports w).2 = thread_log w ++ trace ∧
    (∀ pre, pre `prefix_of` trace → (in_flight pre ≤ THREADS)%nat) ∧
    in_flight trace = 0%nat ∧
    concat batches = seq (clock w) (length ports) ∧
    Forall (λ batch, length batch ≤ THREADS)%nat batches ∧
    trace = batches ≫= batch_events.
Proof.
  destruct (scan_host_ports_run ports w)
    as (trace & batches & Hrun & Hbound & Halive & Hcat & Hsize & Hsplit).
  exists trace, batches. rewrite Hrun. split_and!; try done.
  unfold in_flight. by rewrite Halive.
Qed.

(** C7.  A host scan never raises, and its record lists exactly the
    ports with an attempt for which [connect_ex] returned [0]: a port
    whose attempt raised, was refused or timed out is left out, and
    the ports probed before and after it are classified by their own
    attempts. *)
Theorem failed_attempt_is_closed ports w :
  ∃ record w',
    scan_host_ports env ip ports w = (Ok record, w') ∧
    Sorted Z.le (open_ports record) ∧
    ∀ port, port ∈ open_ports record ↔
      ∃ i, ports !! i = Some port ∧
           connect_ex env (clock w + i) ip port = ConnectReturned 0.
Proof.
  destruct (scan_host_ports_run ports w) as (trace & batches & Hrun & _).
  eexists _, _. split; [exact Hrun|]. simpl. split.
  - apply Sorted_merge_sort; apply _.
  - intros port.
    by rewrite merge_sort_Permutation, elem_of_elements, elem_of_connected.
Qed.

End prober_results.

(** X4.  The record does not depend on the order in which the probe
    threads of the host get to write: any order of the attempts gives
    the set that the record lists. *)
Lemma scan_host_ports_any_schedule (env : Env) (ip : string) ports w atts :
  atts ≡ₚ attempts (clock w) ports →
  ∃ record w',
    scan_host_ports env ip ports w = (Ok record, w') ∧
    open_ports record = merge_sort Z.le (elements (foldl (probe env ip) ∅ atts)).
Proof.
  intros Hperm.
  destruct (scan_host_ports_run env ip ports w) as (trace & batches & Hrun & _).
  eexists _, _. split; [exact Hrun|]. simpl.
  rewrite (scan_port_schedule env ip ∅ _ _ Hperm), probes_run.
  by rewrite (right_id_L ∅ (∪)).
Qed.

(** A scan of five ports on the sample network: only port 22 is open,
    and the run ends normally although the attempt on 443 raised. *)
Example scan_host_ports_sample :
  (scan_host_ports sample_env "10.0.0.9" [80; 443; 22; 8080; 22] empty_world).1
  = Ok (mkScan "10.0.0.9" [22] "T5").
Proof. vm_compute. reflexivity. Qed.

Example scan_host_ports_sample_threads :
  thread_log (scan_host_ports sample_env "10.0.0.9" [80; 443; 22] empty_world).2
  = [Started 0; Started 1; Started 2; Joined 0; Joined 1; Joined 2]%nat.
Proof. vm_compute. reflexivity. Qed.

(** ** The driver *)

Section orchestrator.

Context (env : Env).

(** *** Steps that leave a file alone *)

Lemma keeps_ret path {A} (a : A) : keeps path (ret a).
Proof. done. Qed.

Lemma keeps_lift path {A} (r : result A) : keeps path (lift r).
Proof. done. Qed.

Lemma keeps_print path line : keeps path (print line).
Proof. done. Qed.

Lemma keeps_bind path {A B} (m : M A) (k : A → M B) :
  keeps path m → (∀ a, keeps path (k a)) → keeps path (bind m k).
Proof.
  intros Hm Hk w. unfold bind. specialize (Hm w).
  destruct (m w) as [[a|e] w1]; simpl in *; [|done].
  by rewrite Hk.
Qed.

Lemma keeps_try path {A} (body : M A) (handler : exn → M A) :
  keeps path body → (∀ e, keeps path (handler e)) → keeps path (try_M body handler).
Proof.
  intros Hbody Hhandler w. unfold try_M. specialize (Hbody w).
  destruct (body w) as [[a|e] w1]; simpl in *; [done|].
  by rewrite Hhandler.
Qed.

Lemma keeps_load_json path other : keeps path (load_json other).
Proof. intros w. unfold load_json. by repeat case_match. Qed.

Lemma keeps_write_file path other content :
  other ≠ path → keeps path (write_file env other content).
Proof.
  intros Hne w. unfold write_file. case_match; simpl; [|done].
  by rewrite lookup_insert_ne.
Qed.

Lemma keeps_save_json path other doc :
  other ≠ path → keeps path (save_json env doc other).
Proof.
  intros Hne. apply keeps_bind; [by apply keeps_write_file|].
  intros _. apply keeps_print.
Qed.

Lemma keeps_save_csv path other results :
  other ≠ path → keeps path (save_csv env results other).
Proof.
  intros Hne. destruct results; [apply keeps_ret|].
  apply keeps_bind; [by apply keeps_write_file|].
  intros _. apply keeps_print.
Qed.

(** The comparison reads, it does not write. *)
Lemma keeps_compare_with_baseline path current baseline_path :
  keeps path (compare_with_baseline current baseline_path).
Proof.
  unfold compare_with_baseline. destruct baseline_path as [p|]; [|apply keeps_ret].
  case_decide; [apply keeps_ret|].
  apply keeps_bind.
  - apply keeps_try.
    + apply keeps_bind; [apply keeps_load_json|]. intros ?. apply keeps_ret.
    + intros _. apply keeps_bind; [apply keeps_print|]. intros ?. apply keeps_ret.
  - intros [old|]; [apply keeps_lift|apply keeps_ret].
Qed.

Lemma output_paths_differ (output : string) :
  (output ++ ".csv" ≠ output ++ ".json")%string ∧
  (output ++ "_changes.json" ≠ output ++ ".json")%string.
Proof. split; by intros ?%(inj (String.app output)). Qed.

(** *** Discovery and the scan loop *)

Lemma discover_hosts_run network w :
  discover_hosts env network w
  = (match srp env network with
     | Ok answered => Ok (merge_sort String.le answered)
     | Raise e => Raise e
     end,
     mkWorld (fs w) (stdout w ++ [("[+] Scanning network: " ++ network)%string])
       (thread_log w) (clock w)).
Proof.
  unfold discover_hosts, bind, print, lift, ret. simpl.
  by destruct (srp env network).
Qed.

(** The loop over the live hosts never raises, appends one record
    per host in the order of the hosts, and writes no file. *)
Lemma scan_hosts_run live_hosts ports results w :
  ∃ records w',
    scan_hosts env live_hosts ports results w = (Ok (results ++ records), w') ∧
    ip <$> records = live_hosts ∧
    fs w' = fs w.
Proof.
  revert results w.
  induction live_hosts as [|host live_hosts IH]; intros results w.
  { exists [], w. simpl. unfold ret. by rewrite app_nil_r. }
  cbn [scan_hosts]. unfold bind at 1, print.
  set (w1 := mkWorld _ _ _ _).
  destruct (scan_host_ports_run env host ports w1) as (trace & batches & Hrun & _).
  unfold bind at 1. rewrite Hrun.
  match goal with |- context [scan_hosts _ _ _ (_ ++ [?r]) ?w2] =>
    destruct (IH (results ++ [r]) w2) as (records & w' & Hrest & Hips & Hfs);
    exists (r :: records), w'
  end.
  rewrite Hrest, <-app_assoc. csimpl. by rewrite Hips, Hfs.
Qed.

(** *** Export *)

(** Once the scan reaches the export and the JSON file can be
    written, the result set is on disk at the end of the run,
    however the comparison that follows ends. *)
Lemma export_persists args results w :
  writable env (arg_output args ++ ".json") = true →
  fs (export_and_compare env args results w).2 !! (arg_output args ++ ".json")%string
  = Some (JsonDoc (json_of_results results)).
Proof.
  intros Hwritable. destruct (output_paths_differ (arg_output args)) as [Hcsv Hchanges].
  unfold export_and_compare.
  unfold bind at 1, save_json at 1, bind at 1, write_file at 1.
  rewrite Hwritable. cbn [print fs stdout thread_log clock].
  match goal with |- fs (?rest ?w1).2 !! ?p = _ =>
    assert (keeps p rest) as Hkeeps
  end.
  { apply keeps_bind; [by apply keeps_save_csv|]. intros _.
    apply keeps_bind; [apply keeps_compare_with_baseline|]. intros changes.
    apply keeps_bind; [|intros _; apply keeps_print].
    destruct changes; [apply keeps_print|].
    apply keeps_bind; [by apply keeps_save_json|]. intros _. apply keeps_print. }
  rewrite Hkeeps. simpl. apply lookup_insert_eq.
Qed.

End orchestrator.

Section driver_results.

Context (env : Env).

(** A run whose sweep is answered reaches the export with one record
    per answer, in the order [sorted] gives the addresses. *)
Lemma main_with_hosts args w ports answered :
  resolve_ports env (arg_ports args) = Ok ports →
  srp env (network_of env args) = Ok answered →
  answered ≠ [] →
  ∃ results w1,
    main env args w = export_and_compare env args results w1 ∧
    ip <$> results = merge_sort String.le answered ∧
    fs w1 = fs w.
Proof.
  intros Hports Hsrp Hanswered. unfold main, network_of in *.
  rewrite Hports. unfold bind at 1, lift at 1.
  unfold bind at 1. rewrite discover_hosts_run, Hsrp.
  destruct (merge_sort String.le answered) as [|host hosts] eqn:Hsorted.
  { destruct Hanswered. apply Permutation_nil_r.
    by rewrite <-(merge_sort_Permutation String.le answered), Hsorted. }
  unfold bind at 1, print at 1.
  set (w0 := mkWorld _ _ _ _).
  destruct (scan_hosts_run env (host :: hosts) ports [] w0)
    as (results & w1 & Hrun & Hips & Hfs).
  exists results, w1. unfold bind at 1. rewrite Hrun. simpl. eauto.
Qed.

(** C2, as the code has it.  In a run whose sweep is answered and
    whose JSON file can be written, the result set on disk at the end
    holds one record per answer, in ascending order of the address
    strings, whatever the order of the answers. *)
Theorem results_sorted_by_address_string args w ports answered :
  resolve_ports env (arg_ports args) = Ok ports →
  srp env (network_of env args) = Ok answered →
  answered ≠ [] →
  writable env (arg_output args ++ ".json") = true →
  ∃ results,
    fs (main env args w).2 !! (arg_output args ++ ".json")%string
    = Some (JsonDoc (json_of_results results)) ∧
    ip <$> results ≡ₚ answered ∧
    Sorted String.le (ip <$> results).
Proof.
  intros Hports Hsrp Hanswered Hwritable.
  destruct (main_with_hosts args w ports answered) as (results & w1 & -> & Hips & _);
    [done..|].
  exists results. split_and!.
  - by apply export_persists.
  - by rewrite Hips, merge_sort_Permutation.
  - rewrite Hips. apply Sorted_merge_sort; apply _.
Qed.

(** C8.  When the sweep is answered by no host, the run ends
    normally after two lines on the console, the second one the
    advisory; it starts no thread and writes no file, so no record
    is produced. *)
Theorem no_hosts_is_advisory args w ports :
  resolve_ports env (arg_ports args) = Ok ports →
  srp env (network_of env args) = Ok [] →
  main env args w
  = (Ok tt,
     mkWorld (fs w)
       (stdout w ++ [("[+] Scanning network: " ++ network_of env args)%string;
                     "[!] No live hosts found."])
       (thread_log w) (clock w)).
Proof.
  intros Hports Hsrp. unfold main, network_of in *.
  rewrite Hports. unfold bind at 1, lift at 1.
  unfold bind at 1. rewrite discover_hosts_run, Hsrp.
  unfold print. simpl. by rewrite <-app_assoc.
Qed.

End driver_results.

(** ** Sample runs of the driver *)

Lemma results_sorted_by_address_string_witness :
  ∃ results,
    fs (main sample_env default_args empty_world).2 !! "scan.json"
    = Some (JsonDoc (json_of_results results)) ∧
    ip <$> results ≡ₚ ["10.0.0.9"; "10.0.0.10"] ∧
    Sorted String.le (ip <$> results).
Proof.
  apply (results_sorted_by_address_string sample_env default_args empty_world
           DEFAULT_PORTS ["10.0.0.9"; "10.0.0.10"]).
  - reflexivity.
  - reflexivity.
  - done.
  - reflexivity.
Defined.

(** The sweep is answered by 10.0.0.9 and 10.0.0.10.  The result set
    on disk lists 10.0.0.10 first: ["10.0.0.10"] is below ["10.0.0.9"]
    as a string, and above it as an address. *)
Lemma results_not_sorted_by_address_value :
  fs (main sample_env default_args empty_world).2 !! "scan.json"
  = Some (JsonDoc (json_of_results sample_results)) ∧
  ip <$> sample_results = ["10.0.0.10"; "10.0.0.9"] ∧
  ipv4_value "10.0.0.10" = Some 167772170 ∧
  ipv4_value "10.0.0.9" = Some 167772169 ∧
  ¬ Sorted ipv4_le (ip <$> sample_results).
Proof.
  split_and!; [vm_compute; reflexivity..|].
  intros Hsorted. apply Sorted_inv in Hsorted as [_ Hhd].
  apply HdRel_inv in Hhd. vm_compute in Hhd. by apply Hhd.
Qed.

Lemma no_hosts_is_advisory_witness :
  main silent_env default_args empty_world
  = (Ok tt,
     mkWorld ∅ ["[+] Scanning network: 192.168.1.0/24"; "[!] No live hosts found."] [] 0).
Proof.
  apply (no_hosts_is_advisory silent_env default_args empty_world DEFAULT_PORTS).
  - reflexivity.
  - reflexivity.
Defined.

(** C3, where the code departs from it.  The baseline file holds valid
    JSON without ["open_ports"]: the comparison raises [KeyError],
    outside its [try], and the run ends with that exception instead of
    an empty change set.  The result set is on disk by then; the last
    line printed is the one of the CSV export. *)
Theorem malformed_baseline_aborts :
  let run := main sample_env baseline_args
               (world_with_baseline (JsonDoc malformed_baseline)) in
  run.1 = Raise KeyError ∧
  fs run.2 !! "scan.json" = Some (JsonDoc (json_of_results sample_results)) ∧
  last (stdout run.2) = Some "[+] CSV saved: scan.csv" ∧
  compare_with_baseline sample_results (Some "baseline.json") run.2
  = (Raise KeyError, run.2).
Proof. vm_compute. done. Qed.

(** [--baseline scan.json] with the default output prefix, as in the
    usage notes of the script: the export overwrites [scan.json] before
    the comparison reads it, so the scan is compared with itself and the
    earlier content of the file, here a baseline with other ports, plays
    no part. *)
Example baseline_is_the_output_file :
  let run := main sample_env (mkArgs None None "scan" (Some "scan.json"))
               (mkWorld {["scan.json" := JsonDoc (json_of_results sample_baseline)]} [] [] 0) in
  run.1 = Ok tt ∧
  fs run.2 !! "scan.json" = Some (JsonDoc (json_of_results sample_results)) ∧
  "[+] No changes detected." ∈ stdout run.2.
Proof. vm_compute. split_and!; [done..|]. do 6 right. left. Qed.

(** A baseline that is a JSON object, not a list: nothing raises, and
    every open port of every host is reported as added. *)
Example object_baseline_reports_everything :
  compare_with_baseline sample_results (Some "baseline.json")
    (world_with_baseline (JsonDoc (JObj [])))
  = (Ok [mkChange "10.0.0.10" [AInt 22] [] "T6"; mkChange "10.0.0.9" [AInt 22] [] "T13"],
     world_with_baseline (JsonDoc (JObj []))).
Proof. vm_compute. reflexivity. Qed.

(** ** A baseline that cannot be loaded *)

Section unreadable_baseline.

Context (env : Env).

Lemma save_json_run doc path w :
  writable env path = true →
  save_json env doc path w
  = (Ok tt,
     mkWorld (<[path := JsonDoc doc]> (fs w))
       (stdout w ++ [("[+] JSON saved: " ++ path)%string]) (thread_log w) (clock w)).
Proof.
  intros Hwritable. unfold save_json, bind, write_file, print.
  by rewrite Hwritable.
Qed.

(** What [save_csv] leaves at another path is what was there, or a
    CSV table. *)
Lemma save_csv_run results path w :
  writable env path = true →
  ∃ w', save_csv env results path w = (Ok tt, w') ∧
    ∀ other old, fs w' !! other = Some (JsonDoc old) → fs w !! other = Some (JsonDoc old).
Proof.
  intros Hwritable. destruct results as [|r results].
  { exists w. by unfold save_csv, ret. }
  eexists. unfold save_csv, bind, write_file, print. rewrite Hwritable.
  split; [done|]. simpl. intros other old.
  rewrite lookup_insert. by case_decide.
Qed.

(** X21.  When the baseline file is missing or is not JSON, the
    comparison is skipped with a message, the run ends normally, and
    the result set is on disk. *)
Lemma unreadable_baseline_is_skipped args results w path :
  arg_baseline args = Some path →
  path ≠ "" →
  path ≠ (arg_output args ++ ".json")%string →
  (∀ old, fs w !! path ≠ Some (JsonDoc old)) →
  writable env (arg_output args ++ ".json") = true →
  writable env (arg_output args ++ ".csv") = true →
  (export_and_compare env args results w).1 = Ok tt ∧
  fs (export_and_compare env args results w).2 !! (arg_output args ++ ".json")%string
  = Some (JsonDoc (json_of_results results)) ∧
  ("[!] Could not load baseline: " ++ path)%string
    ∈ stdout (export_and_compare env args results w).2.
Proof.
  intros Hbaseline Hpath Hne Hfile Hjson Hcsv.
  split; [|split; [by apply export_persists|]].
  all: unfold export_and_compare.
  all: unfold bind at 1; rewrite (save_json_run _ _ _ Hjson).
  all: unfold bind at 1.
  all: match goal with |- context [save_csv _ ?rs ?p ?w1] =>
         destruct (save_csv_run rs p w1 Hcsv) as (w2 & Hsave & Hkept)
       end.
  all: rewrite Hsave.
  all: rewrite Hbaseline; unfold bind at 1.
  all: rewrite compare_with_baseline_unreadable;
    [|done|intros old Hold%Hkept; simpl in Hold;
           rewrite lookup_insert_ne in Hold by done; by destruct (Hfile old)].
  all: unfold bind, print; simpl.
  - done.
  - rewrite !elem_of_app. left. left. right. left.
Qed.

End unreadable_baseline.

Example missing_baseline_is_skipped :
  main sample_env baseline_args empty_world
  = (Ok tt,
     mkWorld
       {[ "scan.json" := JsonDoc (json_of_results sample_results);
          "scan.csv" := CsvDoc ["ip"; "open_ports"; "scanned_at"] sample_results ]}
       ["[+] Scanning network: 192.168.1.0/24";
        "[+] Found 2 live hosts. Scanning ports...";
        "    Scanning 10.0.0.10...";
        "    Scanning 10.0.0.9...";
        "[+] JSON saved: scan.json";
        "[+] CSV saved: scan.csv";
        "[!] Could not load baseline: baseline.json";
        "[+] No changes detected.";
        (newline ++ "Scan complete! Results in scan.json and scan.csv")%string]
       (thread_log (main sample_env baseline_args empty_world).2)
       14).
Proof. vm_compute. reflexivity. Qed.

(** * Further properties *)

(** ** The port probe, further *)

Section prober_more.

Context (env : Env) (host : string).

Lemma strictly_ascending (l : list Z) :
  Sorted Z.le l → NoDup l → StronglySorted Z.lt l.
Proof.
  intros Hsorted Hnodup. apply Sorted_StronglySorted in Hsorted; [|apply _].
  induction Hsorted as [|x l Hsorted IH Hall]; constructor.
  - apply IH. by apply NoDup_cons in Hnodup as [_ ?].
  - apply NoDup_cons in Hnodup as [Hx _].
    rewrite Forall_forall in Hall. apply Forall_forall. intros y Hy.
    specialize (Hall y Hy). assert (x ≠ y) by (by intros ->). lia.
Qed.


(** X1.  The open ports of a record are strictly ascending, so each is
    listed once however often the port list names it, and each was
    asked for. *)
Theorem open_ports_strictly_ascending ports w :
  ∃ record w',
    scan_host_ports env host ports w = (Ok record, w') ∧
    ip record = host ∧
    StronglySorted Z.lt (open_ports record) ∧
    ∀ port, port ∈ open_ports record → port ∈ ports.
Proof.
  destruct (scan_host_ports_run env host ports w) as (trace & batches & Hrun & _).
  eexists _, _. split; [exact Hrun|]. simpl. split_and!.
  - done.
  - apply strictly_ascending.
    + apply Sorted_merge_sort; apply _.
    + rewrite merge_sort_Permutation. apply NoDup_elements.
  - intros port.
    rewrite merge_sort_Permutation, elem_of_elements, elem_of_connected.
    intros (i & Hi & _). by eapply list_elem_of_lookup_2.
Qed.


(** The loop again, this time for the exact batches: those joined
    inside the loop hold [THREADS] threads each, and fewer than
    [THREADS] threads are left for the joins after the loop. *)
Lemma scan_threads_full_batches ports (open_ports : gset Z) threads w :
  (length threads < THREADS)%nat →
  ∃ found threads' w' trace full,
    scan_threads env host ports open_ports threads w = (Ok (found, threads'), w') ∧
    thread_log w' = thread_log w ++ trace ∧
    (length threads' < THREADS)%nat ∧
    Forall (λ batch, length batch = THREADS) full ∧
    threads ++ seq (clock w) (length ports) = concat full ++ threads' ∧
    (Started <$> threads) ++ trace = (full ≫= batch_events) ++ (Started <$> threads').
Proof.
  revert open_ports threads w.
  induction ports as [|port ports IH]; intros open_ports threads w Hlen.
  { exists open_ports, threads, w, [], []. simpl. unfold ret.
    by rewrite !app_nil_r. }
  cbn [scan_threads]. unfold bind at 1. rewrite thread_start_run. cbn [fst snd].
  set (t := clock w).
  assert (length (threads ++ [t]) = S (length threads)) as Hlen1
    by (rewrite length_app; simpl; lia).
  case_decide as Hfull.
  - unfold bind. rewrite join_all_run.
    match goal with |- context [scan_threads _ _ _ ?s [] ?w2] =>
      destruct (IH s [] w2)
        as (found & threads' & w' & trace & full & Hrun & Hlog & Hlen' & Hfulls & Hcat & Hsplit)
    end.
    { pose proof THREADS_pos. simpl. lia. }
    rewrite Hrun.
    exists found, threads', w', (Started t :: (Joined <$> threads ++ [t]) ++ trace),
      ((threads ++ [t]) :: full).
    csimpl in *. split_and!.
    + done.
    + rewrite Hlog. by rewrite <-!app_assoc.
    + done.
    + constructor; [lia|done].
    + rewrite <-!app_assoc. by rewrite <-Hcat.
    + rewrite <-!app_assoc, <-Hsplit. unfold batch_events.
      rewrite !fmap_app. csimpl. by rewrite <-!app_assoc.
  - match goal with |- context [scan_threads _ _ _ ?s (threads ++ [t]) ?w1] =>
      destruct (IH s (threads ++ [t]) w1)
        as (found & threads' & w' & trace & full & Hrun & Hlog & Hlen' & Hfulls & Hcat & Hsplit)
    end.
    { lia. }
    rewrite Hrun.
    exists found, threads', w', (Started t :: trace), full.
    csimpl in *. split_and!.
    + done.
    + rewrite Hlog. by rewrite <-!app_assoc.
    + done.
    + done.
    + rewrite <-Hcat. by rewrite <-app_assoc.
    + rewrite <-Hsplit. rewrite !fmap_app. csimpl. by rewrite <-!app_assoc.
Qed.

(** X3.  The batches are cut at every [THREADS] attempts exactly: the
    thread events of a host scan are those of full batches of
    [THREADS] threads each, followed by one last batch of fewer than
    [THREADS] threads, and together the batches are the attempts in
    order. *)
Theorem scan_host_ports_full_batches ports w :
  ∃ full last,
    thread_log (scan_host_ports env host ports w).2
    = thread_log w ++ (full ≫= batch_events) ++ batch_events last ∧
    Forall (λ batch, length batch = THREADS) full ∧
    (length last < THREADS)%nat ∧
    concat full ++ last = seq (clock w) (length ports).
Proof.
  destruct (scan_threads_full_batches ports ∅ [] w)
    as (found & threads' & w' & trace & full & Hrun & Hlog & Hlen' & Hfulls & Hcat & Hsplit).
  { pose proof THREADS_pos. simpl. lia. }
  exists full, threads'. split_and!; try done.
  unfold scan_host_ports, bind at 1. rewrite Hrun. cbn [fst snd].
  unfold bind at 1. rewrite join_all_run.
  unfold datetime_now, bind, tick, ret. simpl in *.
  rewrite Hlog, Hsplit. unfold batch_events at 2. by rewrite <-!app_assoc.
Qed.

(** X5.  When the network answers every attempt at a port alike, the
    open ports of a record depend on the set of ports asked for only:
    neither the order of the port list nor repeated entries show. *)
Theorem open_ports_depend_on_port_set ports ports' w w' :
  (∀ t t' port, connect_ex env t host port = connect_ex env t' host port) →
  (∀ port, port ∈ ports ↔ port ∈ ports') →
  ∃ record record',
    (scan_host_ports env host ports w).1 = Ok record ∧
    (scan_host_ports env host ports' w').1 = Ok record' ∧
    open_ports record = open_ports record'.
Proof.
  intros Hstable Hsame.
  destruct (scan_host_ports_run env host ports w) as (? & ? & -> & _).
  destruct (scan_host_ports_run env host ports' w') as (? & ? & -> & _).
  eexists _, _. split_and!; [done..|]. simpl. do 2 f_equal.
  apply set_eq. intros port. rewrite !elem_of_connected.
  assert (∀ (l : list Z) t0,
    (∃ i, l !! i = Some port ∧ connect_ex env (t0 + i) host port = ConnectReturned 0)
    ↔ port ∈ l ∧ connect_ex env 0 host port = ConnectReturned 0) as Hiff.
  { intros l t0. rewrite list_elem_of_lookup. split.
    - intros (i & Hi & Hconn). rewrite (Hstable _ 0%nat) in Hconn. eauto.
    - intros [[i Hi] Hconn]. exists i. by rewrite (Hstable _ 0%nat). }
  rewrite !Hiff. by rewrite Hsame.
Qed.

End prober_more.

Lemma scan_host_ports_any_schedule_witness :
  ∃ record w',
    scan_host_ports sample_env "10.0.0.9" [80; 22] empty_world = (Ok record, w') ∧
    open_ports record
    = merge_sort Z.le (elements (foldl (probe sample_env "10.0.0.9") ∅ [(1%nat, 22); (0%nat, 80)])).
Proof.
  apply (scan_host_ports_any_schedule sample_env "10.0.0.9" [80; 22] empty_world
           [(1%nat, 22); (0%nat, 80)]).
  apply perm_swap.
Defined.

Lemma open_ports_depend_on_port_set_witness :
  ∃ record record',
    (scan_host_ports sample_env "10.0.0.9" [22; 80] empty_world).1 = Ok record ∧
    (scan_host_ports sample_env "10.0.0.9" [80; 22; 22] sample_world).1 = Ok record' ∧
    open_ports record = open_ports record'.
Proof.
  apply open_ports_depend_on_port_set.
  - reflexivity.
  - intros port. rewrite !elem_of_cons, !elem_of_nil. tauto.
Defined.

(** ** The baseline comparison, further *)

Section differ_more.

Implicit Types current baseline : list ScanRecord.
Implicit Types old_map : gmap atom (gset atom).

(** *** Which baselines the dict comprehension accepts *)

Lemma for_each_Ok_forallb {A S} (body : S → A → result S) (P : A → bool) xs s :
  (∀ s x, (∃ s', body s x = Ok s') ↔ P x = true) →
  (∃ s', for_each body xs s = Ok s') ↔ forallb P xs = true.
Proof.
  intros Hbody. revert s. induction xs as [|x xs IH]; intros s; simpl.
  { split; eauto. }
  rewrite andb_true_iff. destruct (body s x) as [s1|e] eqn:Hx; simpl.
  - rewrite IH. split; [|by intros [_ ?]].
    intros Hrest. split; [|done]. apply (Hbody s). eauto.
  - split; [by intros [? ?]|]. intros [[s' Hs']%(Hbody s) _]. congruence.
Qed.

Lemma py_hash_Ok v : (∃ a, py_hash v = Ok a) ↔ hashable v = true.
Proof.
  destruct v; simpl;
    first [ by split; [intros _|intros _; eauto]
          | by split; [intros [? ?]|intros ?] ].
Qed.

Lemma py_set_body_Ok (s : gset atom) x :
  (∃ s', (let? a := py_hash x in Ok ({[a]} ∪ s)) = Ok s') ↔ hashable x = true.
Proof.
  rewrite <-py_hash_Ok.
  destruct (py_hash x); simpl; split; intros [? ?]; by eauto.
Qed.

Lemma forallb_hashable_strings (l : list string) : forallb hashable (JStr <$> l) = true.
Proof. induction l; csimpl; done. Qed.

Lemma py_set_Ok v : (∃ s, py_set v = Ok s) ↔ set_source v = true.
Proof.
  unfold py_set.
  destruct v as [| | |s|items|members]; simpl; try (split; [by intros [? ?]|done]).
  - rewrite (for_each_Ok_forallb _ hashable); [|apply py_set_body_Ok].
    by rewrite forallb_hashable_strings.
  - apply for_each_Ok_forallb, py_set_body_Ok.
  - rewrite (for_each_Ok_forallb _ hashable); [|apply py_set_body_Ok].
    by rewrite forallb_hashable_strings.
Qed.

Lemma old_map_entry_Ok old_map h :
  (∃ m, old_map_entry old_map h = Ok m) ↔ well_shaped_entry h = true.
Proof.
  unfold old_map_entry, py_getitem.
  destruct h as [| | | | |members]; simpl; try (split; [by intros [? ?]|done]).
  destruct (assoc "ip" members) as [key|]; simpl; [|split; [by intros [? ?]|done]].
  destruct (assoc "open_ports" members) as [ports|]; simpl;
    [|split; [by intros [? ?]|done]].
  rewrite andb_true_iff, <-py_hash_Ok, <-py_set_Ok.
  destruct (py_set ports), (py_hash key); simpl; split;
    try (by intros [? ?]); try (by intros [[? ?] [? ?]]); eauto.
Qed.

Lemma build_old_map_Ok old :
  (∃ old_map, build_old_map old = Ok old_map) ↔ well_shaped old = true.
Proof.
  unfold build_old_map.
  destruct old as [| | |s|items|members]; simpl; try (split; [by intros [? ?]|done]).
  - rewrite (for_each_Ok_forallb _ well_shaped_entry); [|apply old_map_entry_Ok].
    by destruct s.
  - apply for_each_Ok_forallb, old_map_entry_Ok.
  - rewrite (for_each_Ok_forallb _ well_shaped_entry); [|apply old_map_entry_Ok].
    by destruct members.
Qed.

(** X6.  A loaded baseline passes the dict comprehension exactly when
    it is a list whose entries are dicts with a hashable ["ip"] and an
    ["open_ports"] that is a list of hashable items, a dict or a
    string, or when it is the empty dict or the empty string; integer
    ports and ["scanned_at"] are not asked for.  Such a baseline
    compares with the empty result set to the empty change set; any
    other baseline makes the comparison raise whatever the current
    result set is, since the dict is built from the whole baseline
    before the first host is looked at. *)
Theorem baseline_shape_decides old path w :
  path ≠ "" →
  fs w !! path = Some (JsonDoc old) →
  (well_shaped old = true →
   compare_with_baseline [] (Some path) w = (Ok [], w)) ∧
  (well_shaped old = false →
   ∀ current, ∃ e, compare_with_baseline current (Some path) w = (Raise e, w)).
Proof.
  intros Hpath Hfile. split.
  - intros [old_map Hbuild]%build_old_map_Ok.
    rewrite (compare_with_baseline_loaded _ _ _ _ Hpath Hfile).
    unfold compare_loaded. by rewrite Hbuild.
  - intros Hshape current.
    rewrite (compare_with_baseline_loaded _ _ _ _ Hpath Hfile).
    unfold compare_loaded.
    destruct (build_old_map old) as [old_map|e] eqn:Hbuild; simpl; [|eauto].
    assert (well_shaped old = true) by (apply build_old_map_Ok; eauto). congruence.
Qed.

(** *** The order and the form of the records *)

Lemma compare_loop_sublist old_map current changes changes' :
  for_each (compare_host old_map) current changes = Ok changes' →
  ∃ new, changes' = changes ++ new ∧
         change_ip <$> new `sublist_of` ip <$> current.
Proof.
  revert changes. induction current as [|host current IH]; intros changes Hrun; csimpl in *.
  { exists []. simplify_eq. by rewrite app_nil_r. }
  destruct (compare_host old_map changes host) as [changes1|] eqn:Hhost;
    simpl in *; [|done].
  apply IH in Hrun as (new & -> & Hsub).
  apply compare_host_inv in Hhost as [->|(change & -> & Hip & _)].
  - exists new. split; [done|]. by apply sublist_cons.
  - exists (change :: new). rewrite <-app_assoc. split; [done|].
    csimpl. rewrite Hip. by apply sublist_skip.
Qed.

(** X7.  The records of the change set come in the order of the
    current result set, at most one for each of its records. *)
Theorem changes_follow_current current baseline_path w changes w' :
  compare_with_baseline current baseline_path w = (Ok changes, w') →
  change_ip <$> changes `sublist_of` ip <$> current.
Proof.
  intros Hrun.
  apply compare_with_baseline_inv in Hrun as [->|[old Hrun]].
  { apply sublist_nil_l. }
  unfold compare_loaded in Hrun.
  destruct (build_old_map old) as [old_map|]; simpl in *; [|done].
  by apply compare_loop_sublist in Hrun as (new & -> & Hsub).
Qed.

Lemma py_sorted_of_ints (X : gset atom) ys :
  (∀ a, a ∈ X → ∃ n, a = AInt n) →
  py_sorted (elements X) = Ok ys →
  ∃ ns, ys = AInt <$> ns ∧ StronglySorted Z.lt ns.
Proof.
  intros Hints Hsorted.
  assert (NoDup ys) as Hnodup.
  { rewrite (py_sorted_Permutation _ _ Hsorted). apply NoDup_elements. }
  unfold py_sorted in Hsorted.
  destruct (mapM as_int (elements X)) as [ns|] eqn:Hmap.
  - simplify_eq. eexists. split; [done|]. apply strictly_ascending.
    + apply Sorted_merge_sort; apply _.
    + by apply NoDup_fmap_1 in Hnodup.
  - apply mapM_None_1 in Hmap. apply Exists_exists in Hmap as (a & Ha & Hnone).
    apply elem_of_elements, Hints in Ha as [n ->]. done.
Qed.

Lemma compare_host_form old_map changes host changes' :
  compare_host old_map changes host = Ok changes' →
  changes' = changes ∨
  ∃ change, changes' = changes ++ [change] ∧
    change_ip change = ip host ∧
    (∃ ns, added_ports change = AInt <$> ns ∧ StronglySorted Z.lt ns ∧
           ∀ n, n ∈ ns → n ∈ open_ports host) ∧
    NoDup (removed_ports change) ∧
    (added_ports change ≠ [] ∨ removed_ports change ≠ []).
Proof.
  unfold compare_host. intros Hrun. case_decide as Hchanged; [|left; by simplify_eq].
  destruct (py_sorted (elements (_ ∖ _))) as [added|] eqn:Hadded; simpl in *; [|done].
  destruct (py_sorted (elements (_ ∖ _))) as [removed|] eqn:Hremoved in Hrun;
    simpl in *; [|done].
  right. eexists. split; [by simplify_eq|]. simpl.
  pose proof (py_sorted_Permutation _ _ Hadded) as Hpa.
  pose proof (py_sorted_Permutation _ _ Hremoved) as Hpr.
  split_and!.
  - done.
  - apply py_sorted_of_ints in Hadded as (ns & -> & Hns).
    + exists ns. split_and!; [done..|]. intros n Hn.
      assert (AInt n ∈ AInt <$> ns) as Hin by (by apply list_elem_of_fmap_2).
      rewrite Hpa, elem_of_elements, elem_of_difference, elem_of_list_to_set in Hin.
      destruct Hin as [Hin _]. by apply (list_elem_of_fmap_inj_2 AInt) in Hin.
    + intros a [Ha _]%elem_of_difference.
      apply elem_of_list_to_set, list_elem_of_fmap in Ha as (n & -> & _). eauto.
  - rewrite Hpr. apply NoDup_elements.
  - destruct Hchanged as [Hne|Hne]; [left|right]; intros ->.
    + apply Hne. apply Permutation_nil_l in Hpa. symmetry in Hpa.
      by apply elements_empty_inv, leibniz_equiv in Hpa.
    + apply Hne. apply Permutation_nil_l in Hpr. symmetry in Hpr.
      by apply elements_empty_inv, leibniz_equiv in Hpr.
Qed.

(** X8.  Whatever the baseline file holds, a record of the change set
    reports at least one port; its added ports are integers in
    strictly ascending order, all of them open ports of a current
    record of that host; its removed ports are listed once each. *)
Theorem change_record_form current baseline_path w changes w' change :
  compare_with_baseline current baseline_path w = (Ok changes, w') →
  change ∈ changes →
  (added_ports change ≠ [] ∨ removed_ports change ≠ []) ∧
  NoDup (removed_ports change) ∧
  ∃ host ns,
    host ∈ current ∧ change_ip change = ip host ∧
    added_ports change = AInt <$> ns ∧ StronglySorted Z.lt ns ∧
    ∀ n, n ∈ ns → n ∈ open_ports host.
Proof.
  intros Hrun Hin.
  apply compare_with_baseline_inv in Hrun as [->|[old Hrun]].
  { by apply elem_of_nil in Hin. }
  unfold compare_loaded in Hrun.
  destruct (build_old_map old) as [old_map|]; simpl in *; [|done].
  revert change Hin. apply Forall_forall.
  revert Hrun. apply for_each_invariant; [|done].
  intros acc host acc' Hhost Hacc
    [->|(change & -> & Hip & (ns & Hadded & Hns & Hsub) & Hremoved & Hsome)]%compare_host_form;
    [done|].
  apply Forall_app. split; [done|]. apply Forall_singleton.
  split_and!; [done..|]. by exists host, ns.
Qed.

Lemma baseline_ports_absent baseline host_ip :
  host_ip ∉ ip <$> baseline → baseline_ports baseline host_ip = ∅.
Proof.
  intros Habsent. unfold baseline_ports.
  rewrite filter_none; [done|].
  intros b Hb Heq. apply Habsent. rewrite <-Heq. by apply list_elem_of_fmap_2.
Qed.

Lemma port_list_empty : port_list ∅ = [].
Proof. unfold port_list. by rewrite elements_empty. Qed.

Lemma expected_change_absent baseline host :
  ip host ∉ ip <$> baseline → expected_change baseline host = all_added host.
Proof.
  intros Habsent. unfold expected_change, all_added.
  rewrite (baseline_ports_absent _ _ Habsent).
  set (X := list_to_set (open_ports host) : gset Z).
  assert (X ∖ ∅ = X) as -> by set_solver.
  assert (∅ ∖ X = ∅) as -> by set_solver.
  subst X. destruct (open_ports host) as [|port ports] eqn:Hports.
  - apply decide_False. simpl. intros [?|?]; done.
  - rewrite decide_True; [by rewrite port_list_empty|].
    left. simpl. set_solver.
Qed.

(** X9.  When the baseline names none of the current hosts, every
    current host with an open port is reported with all its ports
    added and none removed, and a current host without open ports is
    not reported. *)
Theorem unrelated_baseline_adds_all current baseline path w :
  path ≠ "" →
  fs w !! path = Some (JsonDoc (json_of_results baseline)) →
  Forall (λ host, ip host ∉ ip <$> baseline) current →
  compare_with_baseline current (Some path) w = (Ok (omap all_added current), w).
Proof.
  intros Hpath Hfile Hnew.
  rewrite (compare_with_baseline_loaded _ _ _ _ Hpath Hfile).
  rewrite compare_loaded_well_shaped. do 2 f_equal.
  induction Hnew as [|host current Hhost _ IH]; csimpl; [done|].
  by rewrite IH, (expected_change_absent _ _ Hhost).
Qed.

(** X10.  Comparing in the other direction swaps the roles: for a host
    that both result sets name once, what one comparison reports as
    added the other reports as removed. *)
Theorem compare_swapped a b changes_ab changes_ba change :
  NoDup (ip <$> a) → NoDup (ip <$> b) →
  compare_loaded a (json_of_results b) = Ok changes_ab →
  compare_loaded b (json_of_results a) = Ok changes_ba →
  change ∈ changes_ab →
  change_ip change ∈ ip <$> b →
  ∃ change', change' ∈ changes_ba ∧
    change_ip change' = change_ip change ∧
    added_ports change' = removed_ports change ∧
    removed_ports change' = added_ports change.
Proof.
  intros Ha Hb Hab Hba Hin Hip.
  rewrite compare_loaded_well_shaped in Hab, Hba. simplify_eq.
  apply list_elem_of_omap in Hin as (ha & Hha & Hchange).
  unfold expected_change in Hchange. case_decide as Hchanged; [|done].
  simplify_eq. simpl in *.
  apply list_elem_of_fmap in Hip as (hb & Heq & Hhb).
  rewrite Heq, (baseline_ports_NoDup _ _ Hb Hhb) in *.
  eexists. split.
  - apply list_elem_of_omap. exists hb. split; [done|].
    unfold expected_change.
    rewrite <-Heq, (baseline_ports_NoDup _ _ Ha Hha).
    apply decide_True. tauto.
  - done.
Qed.

(** X11.  The comparison writes no file, starts no thread and does not
    read the clock; on the console it leaves at most the one line
    that says the baseline could not be loaded, and then its result
    is the empty change set. *)
Theorem compare_with_baseline_footprint current baseline_path w :
  let run := compare_with_baseline current baseline_path w in
  fs run.2 = fs w ∧
  thread_log run.2 = thread_log w ∧
  clock run.2 = clock w ∧
  (stdout run.2 = stdout w ∨
   ∃ path, baseline_path = Some path ∧ run.1 = Ok [] ∧
     stdout run.2 = stdout w ++ [("[!] Could not load baseline: " ++ path)%string]).
Proof.
  unfold compare_with_baseline.
  destruct baseline_path as [path|]; [|by split_and!; [..|left]].
  case_decide; [by split_and!; [..|left]|].
  unfold bind, try_M, load_json, ret, lift, print.
  destruct (fs w !! path) as [[old| |]|]; simpl;
    split_and!; try done; first [by left | right; eauto].
Qed.

End differ_more.

Lemma baseline_shape_decides_witness :
  (well_shaped malformed_baseline = true →
   compare_with_baseline [] (Some "baseline.json")
     (world_with_baseline (JsonDoc malformed_baseline))
   = (Ok [], world_with_baseline (JsonDoc malformed_baseline))) ∧
  (well_shaped malformed_baseline = false →
   ∀ current, ∃ e,
     compare_with_baseline current (Some "baseline.json")
       (world_with_baseline (JsonDoc malformed_baseline))
     = (Raise e, world_with_baseline (JsonDoc malformed_baseline))).
Proof. apply baseline_shape_decides; [done|reflexivity]. Defined.

Lemma changes_follow_current_witness :
  change_ip <$> [sample_change] `sublist_of` ip <$> sample_current.
Proof.
  apply (changes_follow_current sample_current (Some "baseline.json")
           sample_world [sample_change] sample_world).
  vm_compute. reflexivity.
Defined.

Lemma change_record_form_witness :
  (added_ports sample_change ≠ [] ∨ removed_ports sample_change ≠ []) ∧
  NoDup (removed_ports sample_change) ∧
  ∃ host ns,
    host ∈ sample_current ∧ change_ip sample_change = ip host ∧
    added_ports sample_change = AInt <$> ns ∧ StronglySorted Z.lt ns ∧
    ∀ n, n ∈ ns → n ∈ open_ports host.
Proof.
  apply (change_record_form sample_current (Some "baseline.json")
           sample_world [sample_change] sample_world sample_change).
  - vm_compute. reflexivity.
  - left.
Defined.

Lemma unrelated_baseline_adds_all_witness :
  compare_with_baseline sample_results (Some "baseline.json") sample_world
  = (Ok (omap all_added sample_results), sample_world).
Proof.
  apply (unrelated_baseline_adds_all sample_results sample_baseline);
    [done|reflexivity|].
  repeat constructor; compute_done.
Defined.

Lemma compare_swapped_witness :
  ∃ change',
    change' ∈ [mkChange "10.0.0.5" [AInt 80] [AInt 8080] "2024-05-01T09:00:00";
               mkChange "10.0.0.7" [AInt 443] [] "2024-05-01T09:00:02"] ∧
    change_ip change' = change_ip sample_change ∧
    added_ports change' = removed_ports sample_change ∧
    removed_ports change' = added_ports sample_change.
Proof.
  apply (compare_swapped sample_current sample_baseline [sample_change]
           [mkChange "10.0.0.5" [AInt 80] [AInt 8080] "2024-05-01T09:00:00";
            mkChange "10.0.0.7" [AInt 443] [] "2024-05-01T09:00:02"]
           sample_change).
  - compute_done.
  - compute_done.
  - vm_compute. reflexivity.
  - vm_compute. reflexivity.
  - left.
  - compute_done.
Defined.

(** ** The driver, further *)

Section driver_more.

Context (env : Env).

(** *** Steps without threads and observations *)


Lemma quiet_lift {A} (r : result A) : quiet (lift r).
Proof. done. Qed.








End driver_more.

Section driver_runs.

Context (env : Env).







(** X16.  The host list does not depend on the order in which the
    answers arrive: two sweeps with the same answers, each as often,
    give the same list. *)
Theorem discover_hosts_order_free (env' : Env) network network' answered answered' w w' :
  srp env network = Ok answered →
  srp env' network' = Ok answered' →
  answered ≡ₚ answered' →
  (discover_hosts env network w).1 = (discover_hosts env' network' w').1.
Proof.
  intros Hsrp Hsrp' Hperm. rewrite !discover_hosts_run, Hsrp, Hsrp'. simpl. f_equal.
  apply sorted_str_canonical.
  - apply Sorted_merge_sort; apply _.
  - by rewrite merge_sort_Permutation.
Qed.

End driver_runs.

(** ** The export, further *)

Section export_more.

Context (env : Env).

Lemma json_path_not_empty (output : string) : (output ++ ".json")%string ≠ "".
Proof. by destruct output. Qed.

(** Export and comparison when the baseline file is read as a result
    set [baseline]. *)
Lemma export_then_compare args results baseline path w :
  arg_baseline args = Some path →
  path ≠ "" →
  results ≠ [] →
  writable env (arg_output args ++ ".json") = true →
  writable env (arg_output args ++ ".csv") = true →
  exported args results (fs w) !! path = Some (JsonDoc (json_of_results baseline)) →
  ∃ lines,
    export_and_compare env args results w
    = (let changes := omap (expected_change baseline) results in
       let* _ :=
         match changes with
         | _ :: _ =>
             let change_path := (arg_output args ++ "_changes.json")%string in
             let* _ := save_json env (json_of_changes changes) change_path in
             print ("[!] " ++ pretty (length changes) ++ " hosts changed! See "
                      ++ change_path)
         | [] => print "[+] No changes detected."
         end in
       print (newline ++ "Scan complete! Results in " ++ (arg_output args ++ ".json")
                ++ " and " ++ (arg_output args ++ ".csv")))
        (mkWorld (exported args results (fs w)) lines (thread_log w) (clock w)).
Proof.
  intros Hbaseline Hpath Hresults Hjson Hcsv Hfile.
  destruct results as [|r results]; [done|].
  unfold export_and_compare.
  unfold bind at 1. rewrite (save_json_run env _ _ _ Hjson).
  unfold bind at 1, save_csv, bind at 1, write_file, print at 1.
  rewrite Hcsv. cbn [fs stdout thread_log clock].
  unfold bind at 1. rewrite Hbaseline.
  rewrite (compare_with_baseline_loaded _ path (json_of_results baseline));
    [|done|exact Hfile].
  rewrite compare_loaded_well_shaped. eauto.
Qed.

(** X17.  With a baseline result set in a file of its own, a run that
    exports [results] ends normally with the JSON and the CSV file
    written, and with the change file holding the change set when
    there is a change; when there is none, the change file is left as
    it was. *)
Theorem export_writes_changes args results baseline path w :
  arg_baseline args = Some path →
  path ≠ "" →
  path ≠ (arg_output args ++ ".json")%string →
  path ≠ (arg_output args ++ ".csv")%string →
  fs w !! path = Some (JsonDoc (json_of_results baseline)) →
  results ≠ [] →
  writable env (arg_output args ++ ".json") = true →
  writable env (arg_output args ++ ".csv") = true →
  writable env (arg_output args ++ "_changes.json") = true →
  let changes := omap (expected_change baseline) results in
  (export_and_compare env args results w).1 = Ok tt ∧
  fs (export_and_compare env args results w).2
  = if decide (changes = []) then exported args results (fs w)
    else <[(arg_output args ++ "_changes.json")%string := JsonDoc (json_of_changes changes)]>
           (exported args results (fs w)).
Proof.
  intros Hbaseline Hpath Hne_json Hne_csv Hfile Hresults Hjson Hcsv Hchanges changes.
  destruct (export_then_compare args results baseline path w) as [lines ->]; try done.
  { unfold exported. by rewrite !lookup_insert_ne. }
  fold changes. destruct changes as [|change changes'] eqn:Hlist.
  - by rewrite decide_True.
  - rewrite decide_False by done.
    unfold bind, save_json, bind, write_file, print. by rewrite Hchanges.
Qed.

(** X18.  When [--baseline] names the JSON file that the run itself
    writes, the export replaces the baseline before the comparison
    reads it: the scan is compared with itself, and with one record
    per host the run reports no change and writes no change file,
    whatever the file held before. *)
Theorem baseline_is_own_output args results w :
  arg_baseline args = Some (arg_output args ++ ".json")%string →
  NoDup (ip <$> results) →
  results ≠ [] →
  writable env (arg_output args ++ ".json") = true →
  writable env (arg_output args ++ ".csv") = true →
  (export_and_compare env args results w).1 = Ok tt ∧
  fs (export_and_compare env args results w).2 = exported args results (fs w) ∧
  "[+] No changes detected." ∈ stdout (export_and_compare env args results w).2.
Proof.
  intros Hbaseline Hnodup Hresults Hjson Hcsv.
  destruct (output_paths_differ (arg_output args)) as [Hne _].
  destruct (export_then_compare args results results _ w Hbaseline) as [lines ->];
    try done.
  { apply json_path_not_empty. }
  { unfold exported. rewrite lookup_insert_ne by done. apply lookup_insert_eq. }
  assert (omap (expected_change results) results = []) as ->.
  { apply omap_all_None. intros host Hin. unfold expected_change.
    rewrite (baseline_ports_NoDup _ _ Hnodup Hin).
    apply decide_False. set_solver. }
  unfold bind, print. simpl. split_and!; [done..|].
  rewrite !elem_of_app. left. right. left.
Qed.

End export_more.

(** ** Local network detection *)

Section local_network.

Import LocalNetwork.

Context (ip_network : string → result string).

Lemma find_app {A} (p : A → bool) (l1 l2 : list A) :
  List.find p (l1 ++ l2)
  = match List.find p l1 with
    | Some a => Some a
    | None => List.find p l2
    end.
Proof. induction l1 as [|a l1 IH]; simpl; [done|]. by destruct (p a). Qed.

(** The inner loop and what follows it, for complete dicts. *)
Lemma scan_addresses_first addrs (otherwise : result string) :
  Forall complete addrs →
  (let? found := scan_addresses ip_network addrs in
   match found with
   | Some network => Ok network
   | None => otherwise
   end)
  = match List.find candidate addrs with
    | Some a => ip_network (network_text a)
    | None => otherwise
    end.
Proof.
  intros Hcomplete.
  induction Hcomplete as [|a addrs [[ip Hip] [mask Hmask]] _ IH]; simpl; [done|].
  assert (candidate a = usable ip mask) as ->
    by (unfold candidate; by rewrite Hip, Hmask).
  rewrite Hip, Hmask. simpl.
  destruct (usable ip mask); [|done].
  unfold network_text. rewrite Hip, Hmask. simpl.
  by destruct (ip_network _).
Qed.

(** X19.  When every address dict has its ['addr'] and ['netmask'],
    the result is decided by the first address, in the order of the
    interfaces and of their addresses, that is not on 127.* and has a
    mask: the network [ipaddress] makes of it, or the exception
    [ipaddress] raises on it, later addresses not being tried; and
    without such an address it is 192.168.1.0/24. *)
Theorem get_local_network_first_candidate interfaces :
  Forall complete (addresses interfaces) →
  get_local_network ip_network interfaces
  = match List.find candidate (addresses interfaces) with
    | Some a => ip_network (network_text a)
    | None => Ok FALLBACK
    end.
Proof.
  unfold addresses.
  induction interfaces as [|[addrs|] interfaces IH]; csimpl; intros Hcomplete.
  - done.
  - apply Forall_app in Hcomplete as [Haddrs Hrest].
    rewrite find_app, (scan_addresses_first _ _ Haddrs), IH by done.
    by destruct (List.find candidate addrs).
  - by apply IH.
Qed.

Lemma scan_addresses_found addrs network :
  scan_addresses ip_network addrs = Ok (Some network) →
  ∃ a ip mask,
    a ∈ addrs ∧ addr a = Some ip ∧ netmask a = Some mask ∧
    String.prefix "127." ip = false ∧ mask ≠ "" ∧
    ip_network (ip ++ "/" ++ mask)%string = Ok network.
Proof.
  induction addrs as [|a addrs IH]; simpl; [done|].
  destruct (addr a) as [ip|] eqn:Hip; simpl; [|done].
  destruct (netmask a) as [mask|] eqn:Hmask; simpl; [|done].
  destruct (usable ip mask) eqn:Husable.
  - destruct (ip_network _) as [n|] eqn:Hnet; simpl; [|done].
    intros [= ->]. exists a, ip, mask.
    unfold usable in Husable. apply andb_true_iff in Husable as [Hloop Hmask'].
    apply negb_true_iff in Hloop, Hmask'. apply bool_decide_eq_false in Hmask'.
    split_and!; try done. left.
  - intros (a' & ip' & mask' & Hin & ?)%IH. exists a', ip', mask'.
    split; [by right|done].
Qed.

(** X20.  Whatever the dicts hold, a network that is returned is
    either the fallback 192.168.1.0/24 or the network of an address
    that does not start with 127. and has a non-empty mask: the
    loopback interface never decides. *)
Theorem get_local_network_not_loopback interfaces network :
  get_local_network ip_network interfaces = Ok network →
  network = FALLBACK ∨
  ∃ a ip mask,
    a ∈ addresses interfaces ∧ addr a = Some ip ∧ netmask a = Some mask ∧
    String.prefix "127." ip = false ∧ mask ≠ "" ∧
    ip_network (ip ++ "/" ++ mask)%string = Ok network.
Proof.
  unfold addresses.
  induction interfaces as [|[addrs|] interfaces IH]; csimpl.
  - intros [= <-]. by left.
  - destruct (scan_addresses ip_network addrs) as [[found|]|] eqn:Hscan; simpl; [| |done].
    + intros [= ->]. right.
      apply scan_addresses_found in Hscan as (a & ip & mask & Hin & ?).
      exists a, ip, mask. split; [|done]. apply elem_of_app. by left.
    + intros [?|(a & ip & mask & Hin & ?)]%IH; [by left|right].
      exists a, ip, mask. split; [|done]. apply elem_of_app. by right.
  - done.
Qed.

End local_network.

(** ** Sample runs for the further properties *)



Lemma discover_hosts_order_free_witness :
  (discover_hosts sample_env "10.0.0.0/24" empty_world).1
  = (discover_hosts
       (mkEnv "192.168.1.0/24" (λ _, None) (λ _, Ok ["10.0.0.10"; "10.0.0.9"])
          (connect_ex sample_env) (now sample_env) (writable sample_env))
       "10.0.0.0/24" sample_world).1.
Proof.
  apply (discover_hosts_order_free sample_env _ _ _
           ["10.0.0.9"; "10.0.0.10"] ["10.0.0.10"; "10.0.0.9"]).
  - reflexivity.
  - reflexivity.
  - apply perm_swap.
Defined.

Lemma export_writes_changes_witness :
  let changes := omap (expected_change sample_baseline) sample_results in
  (export_and_compare sample_env baseline_args sample_results sample_world).1 = Ok tt ∧
  fs (export_and_compare sample_env baseline_args sample_results sample_world).2
  = if decide (changes = []) then exported baseline_args sample_results (fs sample_world)
    else <["scan_changes.json" := JsonDoc (json_of_changes changes)]>
           (exported baseline_args sample_results (fs sample_world)).
Proof.
  apply (export_writes_changes sample_env baseline_args sample_results sample_baseline
           "baseline.json" sample_world).
  - reflexivity.
  - done.
  - compute_done.
  - compute_done.
  - reflexivity.
  - done.
  - reflexivity.
  - reflexivity.
  - reflexivity.
Defined.

Lemma baseline_is_own_output_witness :
  let args := mkArgs None None "scan" (Some "scan.json") in
  (export_and_compare sample_env args sample_results empty_world).1 = Ok tt ∧
  fs (export_and_compare sample_env args sample_results empty_world).2
  = exported args sample_results (fs empty_world) ∧
  "[+] No changes detected."
    ∈ stdout (export_and_compare sample_env args sample_results empty_world).2.
Proof.
  apply (baseline_is_own_output sample_env (mkArgs None None "scan" (Some "scan.json"))
           sample_results empty_world).
  - reflexivity.
  - compute_done.
  - done.
  - reflexivity.
  - reflexivity.
Defined.

Lemma get_local_network_first_candidate_witness :
  LocalNetwork.get_local_network LocalNetwork.sample_ip_network
    LocalNetwork.sample_interfaces
  = Ok "10.1.2.0/24".
Proof.
  apply (get_local_network_first_candidate LocalNetwork.sample_ip_network
           LocalNetwork.sample_interfaces).
  repeat constructor; by eexists.
Defined.

Lemma get_local_network_not_loopback_witness :
  "10.1.2.0/24" = LocalNetwork.FALLBACK ∨
  ∃ a ip mask,
    a ∈ LocalNetwork.addresses LocalNetwork.sample_interfaces ∧
    LocalNetwork.addr a = Some ip ∧ LocalNetwork.netmask a = Some mask ∧
    String.prefix "127." ip = false ∧ mask ≠ "" ∧
    LocalNetwork.sample_ip_network (ip ++ "/" ++ mask)%string = Ok "10.1.2.0/24".
Proof.
  apply (get_local_network_not_loopback LocalNetwork.sample_ip_network
           LocalNetwork.sample_interfaces).
  reflexivity.
Defined.

(** The loopback address alone, or no interface at all, gives the
    fallback; an address without ['netmask'] ahead of any usable one
    ends the detection with [KeyError]. *)
Example get_local_network_edges :
  LocalNetwork.get_local_network LocalNetwork.sample_ip_network [] = Ok "192.168.1.0/24" ∧
  LocalNetwork.get_local_network LocalNetwork.sample_ip_network
    [Some [LocalNetwork.mkAddress (Some "127.0.0.1") (Some "255.0.0.0")]]
  = Ok "192.168.1.0/24" ∧
  LocalNetwork.get_local_network LocalNetwork.sample_ip_network
    [Some [LocalNetwork.mkAddress (Some "10.9.9.9") None;
           LocalNetwork.mkAddress (Some "10.1.2.3") (Some "255.255.255.0")]]
  = Raise KeyError.
Proof. split_and!; reflexivity. Qed.

Lemma unreadable_baseline_is_skipped_witness :
  (export_and_compare sample_env baseline_args sample_results empty_world).1 = Ok tt ∧
  fs (export_and_compare sample_env baseline_args sample_results empty_world).2
    !! "scan.json"
  = Some (JsonDoc (json_of_results sample_results)) ∧
  "[!] Could not load baseline: baseline.json"
    ∈ stdout (export_and_compare sample_env baseline_args sample_results empty_world).2.
Proof.
  apply (unreadable_baseline_is_skipped sample_env baseline_args sample_results
           empty_world "baseline.json").
  - reflexivity.
  - done.
  - compute_done.
  - intros old. simpl. by rewrite lookup_empty.
  - reflexivity.
  - reflexivity.
Defined.
